(** * node-id3: tag location, header codec, tag assembly and tag merging

    A shallow embedding of the tag module (the code after the test suite in
    [src/test/index.ts], which imports [./util-size]) and of
    [src/src/update.ts].

    Buffers are lists of bytes, JavaScript numbers are integers of [Z]
    (every number the code handles is an integer far below 2^53), the
    sentinel [-1] of [indexOf] is kept, and a call that can raise a
    JavaScript exception returns an [Outcome].

    [updateTags] changes the raw-tag object and the arrays it is given, so
    both live in a store and are named by references. A tag record is
    immutable in this code and is kept as a value; its properties hold
    strings, which is what the comparison keys of the frame table
    ([description], [ownerIdentifier]) hold. A raw-tag object is a finite map
    from frame identifiers to values: the order of its keys plays no part in
    the merge, and a frame identifier is never the name of a member of
    [Object.prototype]. *)

From Stdlib Require Import ZArith Lia.
From Stdlib Require Import Strings.Byte.
From stdpp Require Import base option list gmap strings.

Local Open Scope Z_scope.

(** ** Outcomes of JavaScript calls *)

Inductive JsError : Set :=
  | ERR_OUT_OF_RANGE
  | ERR_INVALID_ARG_VALUE.

(** [Return v]: the call returned [v]; [Throws e]: it raised [e];
    [OutOfFuel]: the bounded unfolding of a loop was too short. *)
Inductive Outcome (A : Type) : Type :=
  | Return (a : A)
  | Throws (e : JsError)
  | OutOfFuel.

Arguments Return {A} a.
Arguments Throws {A} e.
Arguments OutOfFuel {A}.

#[global] Instance Outcome_ret : MRet Outcome := @Return.

#[global] Instance Outcome_bind : MBind Outcome := fun A B f m =>
  match m with
  | Return a => f a
  | Throws e => Throws e
  | OutOfFuel => OutOfFuel
  end.

(** ** Bytes and numbers *)

Definition byte_to_Z (b : byte) : Z := Z.of_N (Byte.to_N b).

(** Storing a number in a byte keeps its low 8 bits. *)
Definition byte_of_Z (z : Z) : byte :=
  default Byte.x00 (Byte.of_N (Z.to_N (Z.land z 255))).

(** An element read from a buffer is a number, or [undefined] ([None]) when
    the index is out of range. A bitwise operator converts [undefined] to
    [0]; [===] against a number is false for [undefined]. *)
Definition toInt32 (v : option Z) : Z := default 0 v.

Definition strictEq (v : option Z) (n : Z) : bool := bool_decide (v = Some n).

(** ** Node's Buffer, as far as the code uses it *)

Module Buffer.

Abbreviation t := (list byte).

Definition length (b : t) : Z := Z.of_nat (List.length b).

(** [Buffer.from(array)] *)
Definition from (bytes : list Z) : t := byte_of_Z <$> bytes.

(** [Buffer.from(string)] for a string of ASCII characters *)
Definition fromString (s : string) : t := String.list_byte_of_string s.

(** [buf[i]]: [undefined] out of range *)
Definition get (b : t) (i : Z) : option Z :=
  if decide (0 <= i) then byte_to_Z <$> b !! Z.to_nat i else None.

(** A relative index of [subarray] and [indexOf]: a negative index counts
    from the end, and the result is clamped to the buffer. *)
Definition clampIndex (len i : Z) : Z :=
  if decide (i < 0) then Z.max (len + i) 0 else Z.min i len.

(** [buf.subarray(start, end)] *)
Definition subarray (b : t) (start end_ : Z) : t :=
  let s := clampIndex (length b) start in
  let e := clampIndex (length b) end_ in
  take (Z.to_nat (e - s)) (drop (Z.to_nat s) b).

(** [buf.subarray(start)] *)
Definition subarrayFrom (b : t) (start : Z) : t :=
  subarray b start (length b).

(** [Buffer.alloc(size)]: [size] zero bytes; a negative size throws *)
Definition alloc (size : Z) : Outcome t :=
  if decide (size < 0) then Throws ERR_INVALID_ARG_VALUE
  else Return (replicate (Z.to_nat size) Byte.x00).

(** [buf.fill(value)] *)
Definition fill (b : t) (value : Z) : t :=
  replicate (List.length b) (byte_of_Z value).

(** Overwrite [target] from [targetStart] on with [source], as far as it
    fits. *)
Definition blit (source target : t) (targetStart : Z) : t :=
  take (Z.to_nat targetStart) target ++
  take (List.length target - Z.to_nat targetStart) source ++
  drop (Z.to_nat targetStart + List.length source) target.

(** [buf.write(string, offset)] *)
Definition write (b : t) (s : string) (offset : Z) : Outcome t :=
  if decide (offset < 0 \/ length b < offset) then Throws ERR_OUT_OF_RANGE
  else Return (blit (fromString s) b offset).

(** [buf.writeUInt16BE(value, offset)] *)
Definition writeUInt16BE (b : t) (value offset : Z) : Outcome t :=
  if decide (value < 0 \/ 65535 < value) then Throws ERR_OUT_OF_RANGE
  else if decide (offset < 0 \/ length b < offset + 2) then Throws ERR_OUT_OF_RANGE
  else Return (blit [byte_of_Z (Z.shiftr value 8); byte_of_Z value] b offset).

(** [source.copy(target, targetStart, sourceStart)]; the updated target.
    Node throws for a [sourceStart] past the end of the source, and copies
    nothing into a target that ends before [targetStart]. *)
Definition copy (source target : t) (targetStart sourceStart : Z) : Outcome t :=
  if decide (targetStart < 0) then Throws ERR_OUT_OF_RANGE
  else if decide (sourceStart < 0 \/ length source < sourceStart) then Throws ERR_OUT_OF_RANGE
  else if decide (length target <= targetStart) then Return target
  else Return (blit (drop (Z.to_nat sourceStart) source) target targetStart).

(** [Buffer.concat(list)] *)
Definition concat (bs : list t) : t := mjoin bs.

(** The number of [bytes], big-endian *)
Definition bigEndian (bytes : t) : Z :=
  foldl (fun acc b => acc * 256 + byte_to_Z b) 0 bytes.

(** [buf.readUIntBE(offset, byteLength)] *)
Definition readUIntBE (b : t) (offset byteLength : Z) : Outcome Z :=
  if decide (offset < 0 \/ length b < offset + byteLength) then Throws ERR_OUT_OF_RANGE
  else Return (bigEndian (subarray b offset (offset + byteLength))).

(** [buf.readUInt32BE(offset)] *)
Definition readUInt32BE (b : t) (offset : Z) : Outcome Z :=
  readUIntBE b offset 4.

Fixpoint startsWith (b needle : t) {struct needle} : bool :=
  match needle, b with
  | [], _ => true
  | _ :: _, [] => false
  | n :: needle', x :: b' => Byte.eqb n x && startsWith b' needle'
  end.

(** The least number of bytes to skip before [needle] starts *)
Fixpoint search (needle b : t) {struct b} : option nat :=
  if startsWith b needle then Some 0%nat
  else match b with
       | [] => None
       | _ :: b' => S <$> search needle b'
       end.

(** [buf.indexOf(string, byteOffset)] *)
Definition indexOf (b : t) (value : string) (byteOffset : Z) : Z :=
  let start := clampIndex (length b) byteOffset in
  match search (fromString value) (drop (Z.to_nat start) b) with
  | Some k => start + Z.of_nat k
  | None => -1
  end.

End Buffer.

(** [array.indexOf(x)] on an array of numbers, for [x] a number or
    [undefined] *)
Fixpoint Array_indexOf_from (i : Z) (xs : list Z) (x : option Z) : Z :=
  match xs with
  | [] => -1
  | y :: ys => if strictEq x y then i else Array_indexOf_from (i + 1) ys x
  end.

Definition Array_indexOf (xs : list Z) (x : option Z) : Z :=
  Array_indexOf_from 0 xs x.

(** ** [util-size]: the synchsafe size codec *)

(** Modelled from the spec: [encodeSize] of util-size.ts, which is not among
    the sources. The spec (4.1): the number is split into 7-bit groups, most
    significant group first, each stored in a byte with bit 7 forced to 0. *)
Definition encodeSize (size : Z) : Buffer.t :=
  Buffer.from [ Z.land (Z.shiftr size 21) 0x7F;
                Z.land (Z.shiftr size 14) 0x7F;
                Z.land (Z.shiftr size 7) 0x7F;
                Z.land size 0x7F ].

(** Modelled from the spec: [decodeSize] of util-size.ts, which is not among
    the sources. The spec (4.1): the low 7 bits of each of the four bytes are
    concatenated, most significant first. *)
Definition decodeSize (encodedSize : Buffer.t) : Z :=
  Z.shiftl (Z.land (toInt32 (Buffer.get encodedSize 0)) 0x7F) 21 +
  Z.shiftl (Z.land (toInt32 (Buffer.get encodedSize 1)) 0x7F) 14 +
  Z.shiftl (Z.land (toInt32 (Buffer.get encodedSize 2)) 0x7F) 7 +
  Z.land (toInt32 (Buffer.get encodedSize 3)) 0x7F.

(** ** The tag module: header, locator, embed, strip and body *)

Module Header.
Definition identifier : string := "ID3".
Definition size : Z := 10.
Module offset.
Definition identifier : Z := 0.
Definition version : Z := 3.
Definition revision : Z := 4.
Definition flags : Z := 5.
Definition size : Z := 6.
End offset.
End Header.

Definition subarray (buffer : Buffer.t) (offset size : Z) : Buffer.t :=
  Buffer.subarray buffer offset (offset + size).

Definition embedFramesInId3Tag (frames : Buffer.t) : Outcome Buffer.t :=
  header ← Buffer.alloc Header.size;
  let header := Buffer.fill header 0 in
  header ← Buffer.write header Header.identifier Header.offset.identifier;
  header ← Buffer.writeUInt16BE header 0x0300 Header.offset.version;
  header ← Buffer.writeUInt16BE header 0x0000 Header.offset.flags;
  header ← Buffer.copy (encodeSize (Buffer.length frames)) header Header.offset.size 0;
  mret (Buffer.concat [header; frames]).

Definition isValidEncodedSize (encodedSize : Buffer.t) : bool :=
  bool_decide
    (Z.land
       (Z.lor (Z.lor (Z.lor (toInt32 (Buffer.get encodedSize 0))
                            (toInt32 (Buffer.get encodedSize 1)))
                     (toInt32 (Buffer.get encodedSize 2)))
              (toInt32 (Buffer.get encodedSize 3)))
       128 = 0).

Definition isValidId3Header (buffer : Buffer.t) : Outcome bool :=
  if decide (Buffer.length buffer < Header.size) then mret false
  else
    identifier ← Buffer.readUIntBE buffer Header.offset.identifier 3;
    if negb (bool_decide (identifier = 0x494433)) then mret false
    else
      let majorVersion := Buffer.get buffer Header.offset.version in
      let revision := Buffer.get buffer Header.offset.revision in
      if strictEq majorVersion 0xFF || strictEq revision 0xFF then mret false
      else if bool_decide (Array_indexOf [0x02; 0x03; 0x04] majorVersion = -1)
      then mret false
      else mret (isValidEncodedSize (subarray buffer Header.offset.size 4)).

(** The [do ... while] loop of [findId3TagPosition], entered with the current
    value of [position]; one unit of [fuel] pays for one iteration. *)
Fixpoint findId3TagPosition_loop (fuel : nat) (buffer : Buffer.t) (position : Z)
  : Outcome Z :=
  match fuel with
  | O => OutOfFuel
  | S fuel' =>
      let position := Buffer.indexOf buffer Header.identifier (position + 1) in
      if bool_decide (position <> -1) then
        valid ← isValidId3Header (Buffer.subarrayFrom buffer position);
        if (valid : bool) then mret position
        else findId3TagPosition_loop fuel' buffer position
      else mret (-1)
  end.

(** Every iteration but the last moves [position] forward by at least one
    byte, so one iteration per byte and one more are enough. *)
Definition findId3TagPosition (buffer : Buffer.t) : Outcome Z :=
  findId3TagPosition_loop (S (List.length buffer)) buffer (-1).

(** The object [parseTagHeaderFlags] returns; a property that is not set is
    [None]. *)
Record TagHeaderFlags : Set := {
  unsynchronisation : option bool;
  extendedHeader : option bool;
  experimentalIndicator : option bool;
  footerPresent : option bool
}.

Definition noFlags : TagHeaderFlags :=
  {| unsynchronisation := None; extendedHeader := None;
     experimentalIndicator := None; footerPresent := None |}.

(** [!!(flagsByte & mask)] *)
Definition flagBit (flagsByte : option Z) (mask : Z) : bool :=
  negb (bool_decide (Z.land (toInt32 flagsByte) mask = 0)).

Definition truthy (v : option bool) : bool := default false v.

Definition parseTagHeaderFlags (header : Buffer.t) : TagHeaderFlags :=
  if decide (Buffer.length header < Header.size) then noFlags
  else
    let version := Buffer.get header 3 in
    let flagsByte := Buffer.get header 5 in
    if strictEq version 3 then
      {| unsynchronisation := Some (flagBit flagsByte 128);
         extendedHeader := Some (flagBit flagsByte 64);
         experimentalIndicator := Some (flagBit flagsByte 32);
         footerPresent := None |}
    else if strictEq version 4 then
      {| unsynchronisation := Some (flagBit flagsByte 128);
         extendedHeader := Some (flagBit flagsByte 64);
         experimentalIndicator := Some (flagBit flagsByte 32);
         footerPresent := Some (flagBit flagsByte 16) |}
    else noFlags.

(** What [removeId3Tag] returns: a buffer, or [false]. *)
Inductive BufferOrFalse : Set :=
  | IsBuffer (data : Buffer.t)
  | IsFalse.

Definition removeId3Tag (data : Buffer.t) : Outcome BufferOrFalse :=
  tagPosition ← findId3TagPosition data;
  if bool_decide (tagPosition = -1) then mret (IsBuffer data)
  else
    let encodedSize := subarray data (tagPosition + Header.offset.size) 4 in
    if negb (isValidEncodedSize encodedSize) then mret IsFalse
    else if bool_decide (Buffer.length data >= tagPosition + Header.size) then
      let size := decodeSize encodedSize in
      mret (IsBuffer (Buffer.concat [
        Buffer.subarray data 0 tagPosition;
        Buffer.subarrayFrom data (tagPosition + size + Header.size)
      ]))
    else mret (IsBuffer data).

(** The object [getId3TagBody] returns when a tag is found. *)
Record TagBody : Set := {
  version : option Z;
  buffer : Buffer.t
}.

(** [None] is [undefined]: no tag was found. *)
Definition getId3TagBody (buffer : Buffer.t) : Outcome (option TagBody) :=
  tagPosition ← findId3TagPosition buffer;
  if bool_decide (tagPosition = -1) then mret None
  else
    let encodedSize := subarray buffer (tagPosition + Header.offset.size) 4 in
    let tagSize := Header.size + decodeSize encodedSize in
    let tagData := subarray buffer tagPosition tagSize in
    let tagHeader := Buffer.subarray tagData 0 Header.size in
    let version := Buffer.get tagHeader Header.offset.version in
    let tagFlags := parseTagHeaderFlags tagHeader in
    extendedHeaderSize ←
      (if truthy (extendedHeader tagFlags) then
         if strictEq version 3 then
           n ← Buffer.readUInt32BE tagData Header.size; mret (4 + n)
         else if strictEq version 4 then
           mret (decodeSize (subarray tagData Header.size 4))
         else mret 0
       else mret 0);
    let totalHeaderSize := Header.size + extendedHeaderSize in
    let bodySize := tagSize - totalHeaderSize in
    body ← Buffer.alloc bodySize;
    body ← Buffer.copy tagData body 0 totalHeaderSize;
    mret (Some {| version := version; buffer := body |}).

(** ** JavaScript objects, as far as [update.ts] uses them *)

(** The names every plain object inherits from [Object.prototype]. *)
Definition Object_prototype : list string :=
  [ "constructor"; "__defineGetter__"; "__defineSetter__"; "hasOwnProperty";
    "__lookupGetter__"; "__lookupSetter__"; "isPrototypeOf";
    "propertyIsEnumerable"; "toString"; "valueOf"; "__proto__";
    "toLocaleString" ]%string.

(** What reading a property of a tag record gives: a string the record
    holds, the inherited member of [Object.prototype], or [undefined]. *)
Inductive PropertyValue : Set :=
  | PUndefined
  | PString (s : string)
  | PBuiltin (name : string).

(** A tag record such as [{description: "abc", value: "deg"}]: its own
    properties in order, with string values. *)
Abbreviation TagRecord := (list (string * string)).

(** The own property [key] of a record *)
Fixpoint Record_own (record : TagRecord) (key : string) : option string :=
  match record with
  | [] => None
  | (name, value) :: record =>
      if bool_decide (name = key) then Some value else Record_own record key
  end.

(** [record[key]] *)
Definition Record_get (record : TagRecord) (key : string) : PropertyValue :=
  match Record_own record key with
  | Some s => PString s
  | None =>
      if bool_decide (key ∈ Object_prototype) then PBuiltin key else PUndefined
  end.

(** The string a value becomes when it is used as a property key. An
    inherited function gives its source text, which names the function:
    the member [constructor] is the function [Object], every other method
    has the name of its member. [__proto__] gives [Object.prototype]
    itself, an object. *)
Definition ToPropertyKey (v : PropertyValue) : string :=
  match v with
  | PUndefined => "undefined"
  | PString s => s
  | PBuiltin name =>
      if bool_decide (name = "__proto__") then "[object Object]"
      else if bool_decide (name = "constructor")
      then "function Object() { [native code] }"
      else "function " +:+ name +:+ "() { [native code] }"
  end.

(** [compareValueToFrameIndex]: a plain object [{}] used as a map from
    compare values to array indices; the map holds its own properties. *)
Abbreviation FrameIndex := (gmap string nat).

(** What reading a property of [compareValueToFrameIndex] gives. *)
Inductive IndexValue : Set :=
  | INumber (index : nat)
  | IBuiltin (name : string)
  | IUndefined.

(** [object[key] = index]; assigning a number to [__proto__] does nothing. *)
Definition FrameIndex_set (object : FrameIndex) (key : string) (index : nat)
  : FrameIndex :=
  if bool_decide (key = "__proto__") then object else <[key := index]> object.

(** [key in object]: own and inherited properties *)
Definition FrameIndex_in (key : string) (object : FrameIndex) : bool :=
  bool_decide (is_Some (object !! key)) || bool_decide (key ∈ Object_prototype).

(** [object[key]] *)
Definition FrameIndex_get (object : FrameIndex) (key : string) : IndexValue :=
  match object !! key with
  | Some index => INumber index
  | None =>
      if bool_decide (key ∈ Object_prototype) then IBuiltin key else IUndefined
  end.

(** ** The store: arrays and raw-tag objects are shared, mutable objects *)

Definition loc := positive.

(** An element of a multi-valued frame: a bare string or a tag record. *)
Inductive Item : Type :=
  | IString (s : string)
  | IObject (record : TagRecord).

(** [RawTags[keyof RawTags]]: a value of a raw-tag object. An array is a
    reference into the store. *)
Inductive Value : Type :=
  | VUndefined
  | VItem (item : Item)
  | VArray (array : loc).

Record Heap : Type := {
  arrays : gmap loc (list Item);
  objects : gmap loc (gmap string Value)
}.

Definition readArray (h : Heap) (array : loc) : list Item :=
  default [] (arrays h !! array).

Definition writeArray (h : Heap) (array : loc) (items : list Item) : Heap :=
  {| arrays := <[array := items]> (arrays h); objects := objects h |}.

(** An array literal: a new array in the store *)
Definition newArray (h : Heap) (items : list Item) : loc * Heap :=
  let array := fresh (dom (arrays h)) in (array, writeArray h array items).

(** The own property [key] of a raw-tag object, if it has one *)
Definition ownProperty (h : Heap) (object : loc) (key : string) : option Value :=
  default ∅ (objects h !! object) !! key.

(** [object[key]] for a raw-tag object: [undefined] without the property *)
Definition getProperty (h : Heap) (object : loc) (key : string) : Value :=
  default VUndefined (ownProperty h object key).

(** [object[key] = value] for a raw-tag object *)
Definition setProperty (h : Heap) (object : loc) (key : string) (value : Value)
  : Heap :=
  {| arrays := arrays h;
     objects := <[object := <[key := value]> (default ∅ (objects h !! object))]>
                  (objects h) |}.

(** The object literal [{}]: a new raw-tag object in the store *)
Definition newObject (h : Heap) : loc * Heap :=
  let object := fresh (dom (objects h)) in
  (object, {| arrays := arrays h; objects := <[object := ∅]> (objects h) |}).

(** [array[index] = item], for an index below the length *)
Definition Array_set (array : loc) (index : nat) (item : Item) (h : Heap) : Heap :=
  writeArray h array (<[index := item]> (readArray h array)).

(** [array.push(item)] *)
Definition Array_push (array : loc) (item : Item) (h : Heap) : Heap :=
  writeArray h array (readArray h array ++ [item]).

(** [array.forEach(callback)], for a callback that may change the store:
    the indices below the length at the start are visited in order, and each
    element is read when its turn comes. *)
Definition Array_forEach (array : loc) (callback : Item -> Heap -> Heap)
    (h : Heap) : Heap :=
  foldl (fun h index =>
           match readArray h array !! index with
           | Some item => callback item h
           | None => h
           end)
        h (seq 0 (List.length (readArray h array))).

(** Truthiness: [undefined] and the empty string are falsy, a record and an
    array are truthy. *)
Definition Value_truthy (v : Value) : bool :=
  match v with
  | VUndefined => false
  | VItem (IString s) => negb (bool_decide (s = ""%string))
  | VItem (IObject _) => true
  | VArray _ => true
  end.

Definition Array_isArray (v : Value) : bool :=
  match v with VArray _ => true | _ => false end.

(** ** [update.ts] *)

(** [FrameOptions] of definitions/FrameOptions.ts, of which the code reads
    [multiple] and [updateCompareKey]; [None] is [undefined]. *)
Record FrameOptions : Set := {
  multiple : bool;
  updateCompareKey : option string
}.

(** [Tags], of which the code reads [raw]; [None] is [undefined]. *)
Record Tags : Set := {
  raw : option loc
}.

(** The first [forEach] of [updateFrameIfMultiple]: the index from compare
    value to position, over the elements of [currentTag]. *)
Definition compareValueToFrameIndex (compareKey : string) (currentTag : list Item)
  : FrameIndex :=
  foldl (fun object '(index, tag) =>
           match tag with
           | IObject record =>
               let compareValue := Record_get record compareKey in
               FrameIndex_set object (ToPropertyKey compareValue) index
           | IString _ => object
           end)
        ∅ (imap pair currentTag).

(** The callback of the second [forEach] of [updateFrameIfMultiple]. *)
Definition updateFrame_callback (compareKey : string) (index : FrameIndex)
    (currentTag : loc) (tagValue : Item) (h : Heap) : Heap :=
  match tagValue with
  | IObject record =>
      let tagProperty := ToPropertyKey (Record_get record compareKey) in
      if FrameIndex_in tagProperty index then
        match FrameIndex_get index tagProperty with
        | INumber frameIndex => Array_set currentTag frameIndex tagValue h
        | IBuiltin _ | IUndefined =>
            (* [currentTag[frameIndex]] with a frameIndex that is no number
               sets a property of that name: no element changes *)
            h
        end
      else Array_push currentTag tagValue h
  | IString _ => Array_push currentTag tagValue h
  end.

(** [newTag instanceof Array ? newTag : [newTag]]; [undefined] is falsy and
    does not get this far. *)
Definition newTagArray_of (newTag : Value) (h : Heap) : option (loc * Heap) :=
  match newTag with
  | VArray newTag => Some (newTag, h)
  | VItem newTag => Some (newArray h [newTag])
  | VUndefined => None
  end.

(** [!compareKey] is true for [undefined] and for the empty string. *)
Definition compareKey_truthy (compareKey : option string) : bool :=
  match compareKey with
  | Some key => negb (bool_decide (key = ""%string))
  | None => false
  end.

(** [None] is [null]. *)
Definition updateFrameIfMultiple (options : FrameOptions)
    (newTag currentTag : Value) (h : Heap) : option Value * Heap :=
  if negb (multiple options) || negb (Value_truthy newTag) ||
     negb (Value_truthy currentTag) || negb (Array_isArray currentTag)
  then (None, h)
  else
    match currentTag, newTagArray_of newTag h with
    | VArray currentTag, Some (newTagArray, h) =>
        let compareKey := updateCompareKey options in
        if negb (compareKey_truthy compareKey) then
          let '(result, h) :=
            newArray h (readArray h currentTag ++ readArray h newTagArray) in
          (Some (VArray result), h)
        else
          (* a string, since [!compareKey] is false *)
          let compareKey := default ""%string compareKey in
          let index :=
            compareValueToFrameIndex compareKey (readArray h currentTag) in
          let h :=
            Array_forEach newTagArray
              (updateFrame_callback compareKey index currentTag) h in
          (Some (VArray currentTag), h)
    | _, _ => (None, h)
    end.

(** [newRawTags[frameIdentifier]] for the object [convertWriteTagsToRawTags]
    returns, given as its entries in the order of [Object.keys]. *)
Fixpoint RawTags_get (newRawTags : list (string * Value))
    (frameIdentifier : string) : Value :=
  match newRawTags with
  | [] => VUndefined
  | (key, value) :: newRawTags =>
      if bool_decide (key = frameIdentifier) then value
      else RawTags_get newRawTags frameIdentifier
  end.

Section Update.

(** [WriteTags], [convertWriteTagsToRawTags] of TagsConverters.ts and
    [getSpecOptions] of ID3Util.ts are not among the sources: the merge is
    stated for any of them. The store is the one after the conversion. *)
Context {WriteTags : Type}.
Variable convertWriteTagsToRawTags : WriteTags -> list (string * Value).
Variable getSpecOptions : string -> FrameOptions.

(** The callback of [Object.keys(newRawTags).map(...)]. *)
Definition updateTags_callback (newRawTags : list (string * Value))
    (currentRawTags : loc) (h : Heap) (frameIdentifier : string) : Heap :=
  let newFrame := RawTags_get newRawTags frameIdentifier in
  let '(updatedFrame, h) :=
    updateFrameIfMultiple (getSpecOptions frameIdentifier) newFrame
      (getProperty h currentRawTags frameIdentifier) h in
  setProperty h currentRawTags frameIdentifier (default newFrame updatedFrame).

(** The raw-tag object returned, and the store after the call. *)
Definition updateTags (newTags : WriteTags) (currentTags : Tags) (h : Heap)
  : loc * Heap :=
  let newRawTags := convertWriteTagsToRawTags newTags in
  let '(currentRawTags, h) :=
    match raw currentTags with
    | Some object => (object, h)
    | None => newObject h
    end in
  let h :=
    foldl (updateTags_callback newRawTags currentRawTags) h newRawTags.*1 in
  (currentRawTags, h).

End Update.

(** * Specifications *)

(** The signature "ID3" stands at [offset]. *)
Definition signatureAt (buffer : Buffer.t) (offset : nat) : Prop :=
  buffer !! offset = Some "I"%byte /\
  buffer !! (offset + 1)%nat = Some "D"%byte /\
  buffer !! (offset + 2)%nat = Some "3"%byte.

(** The seven bytes after a signature pass the checks of a header: neither
    the major version nor the revision is 0xFF, the major version is 2, 3 or
    4, and the four size bytes pass [isValidEncodedSize]. *)
Definition headerChecksAt (buffer : Buffer.t) (offset : nat) : Prop :=
  exists major revision s0 s1 s2 s3,
    buffer !! (offset + 3)%nat = Some major /\
    buffer !! (offset + 4)%nat = Some revision /\
    buffer !! (offset + 6)%nat = Some s0 /\
    buffer !! (offset + 7)%nat = Some s1 /\
    buffer !! (offset + 8)%nat = Some s2 /\
    buffer !! (offset + 9)%nat = Some s3 /\
    byte_to_Z major <> 0xFF /\ byte_to_Z revision <> 0xFF /\
    byte_to_Z major ∈ [2; 3; 4] /\
    isValidEncodedSize [s0; s1; s2; s3] = true.

Definition validTagAt (buffer : Buffer.t) (offset : nat) : Prop :=
  signatureAt buffer offset /\ headerChecksAt buffer offset.

(** What the locator is to return on [buffer]: the least offset of a valid
    tag, or [-1] when no offset holds one. *)
Definition locates (buffer : Buffer.t) (result : Outcome Z) : Prop :=
  (result = Return (-1) /\ forall q, ~ validTagAt buffer q) \/
  (exists p, result = Return (Z.of_nat p) /\ validTagAt buffer p /\
             forall q, (q < p)%nat -> ~ validTagAt buffer q).

(** [result] is [data] without the [count] bytes that start at [offset]. *)
Definition removesExactly (data : Buffer.t) (offset count : nat)
    (result : Buffer.t) : Prop :=
  exists before removed after,
    data = before ++ removed ++ after /\
    List.length before = offset /\ List.length removed = count /\
    result = before ++ after.

(** Strip, for a tag located at [offset] whose size field is accepted:
    a buffer comes back, and it is the input without exactly 10 + size
    bytes from [offset] on. *)
Definition stripsWholeTag (data : Buffer.t) (offset : nat) : Prop :=
  let encodedSize := subarray data (Z.of_nat offset + Header.offset.size) 4 in
  isValidEncodedSize encodedSize = true ->
  exists result,
    removeId3Tag data = Return (IsBuffer result) /\
    removesExactly data offset (10 + Z.to_nat (decodeSize encodedSize)) result.

(** The bytes of the tag located at [offset]: the header and as much of the
    declared body as the buffer holds. *)
Definition tagDataAt (buffer : Buffer.t) (offset : nat) : Buffer.t :=
  let size := decodeSize (take 4 (drop (offset + 6) buffer)) in
  take (10 + Z.to_nat size) (drop offset buffer).

(** The body of the tag located at [offset] when [headerSize] bytes of
    headers come first: the tag bytes after them, then zero bytes for what
    the buffer lacks of the declared size. *)
Definition bodyAfter (buffer : Buffer.t) (offset headerSize : nat) : Buffer.t :=
  let size := decodeSize (take 4 (drop (offset + 6) buffer)) in
  drop headerSize (tagDataAt buffer offset)
  ++ replicate (10 + Z.to_nat size - List.length (tagDataAt buffer offset))
       Byte.x00.

(** A step of the merge keeps the raw-tag objects and the arrays allocated so
    far. *)
Definition extends (h h' : Heap) : Prop :=
  objects h' = objects h /\ dom (arrays h) ⊆ dom (arrays h').


(** What the callback of [updateTags] stores under [frameIdentifier] when it
    runs in the store [h]: [updatedFrame || newFrame]. *)
Definition storedFrame (getSpecOptions : string -> FrameOptions)
    (newRawTags : list (string * Value)) (currentRawTags : loc) (h : Heap)
    (frameIdentifier : string) : Value :=
  let newFrame := RawTags_get newRawTags frameIdentifier in
  default newFrame
    (updateFrameIfMultiple (getSpecOptions frameIdentifier) newFrame
       (getProperty h currentRawTags frameIdentifier) h).1.

(** ** The merge by comparison key, in the words of the spec (4.6, step 3) *)

(** The comparison-key value of an element, as the property key it is
    compared by; a bare string has none. *)
Definition compareValue (compareKey : string) (item : Item) : option string :=
  match item with
  | IObject record => Some (ToPropertyKey (Record_get record compareKey))
  | IString _ => None
  end.

(** "Build an index from each existing record's value at the comparison key
    to its position": the position of the last record of [existing] with
    comparison-key value [value], positions counted from [first]. *)
Fixpoint lastPositionFrom (compareKey : string) (first : nat)
    (existing : list Item) (value : string) : option nat :=
  match existing with
  | [] => None
  | item :: existing =>
      match lastPositionFrom compareKey (S first) existing value with
      | Some position => Some position
      | None =>
          if bool_decide (compareValue compareKey item = Some value)
          then Some first else None
      end
  end.

(** "For each new record: if its comparison-key value matches an existing
    record's key value, overwrite that record in place (preserving
    position); otherwise append the new record at the end." *)
Definition specMergeRecord (compareKey : string) (existing : list Item)
    (merged : list Item) (new : Item) : list Item :=
  match compareValue compareKey new with
  | Some value =>
      match lastPositionFrom compareKey 0 existing value with
      | Some position => <[position := new]> merged
      | None => merged ++ [new]
      end
  | None => merged ++ [new]
  end.

Definition specMerge (compareKey : string) (existing new : list Item)
  : list Item :=
  foldl (specMergeRecord compareKey existing) existing new.

(** The elements of [newTagArray], for a [newTag] that is truthy. *)
Definition newItems (h : Heap) (newTag : Value) : list Item :=
  match newTag with
  | VArray newTag => readArray h newTag
  | VItem newTag => [newTag]
  | VUndefined => []
  end.

(** ** A frame table and a store to run the merge on *)

(** Modelled from the spec: the frame-spec lookup, [getSpecOptions] of
    ID3Util.ts, which is not among the sources. The spec (3, 4.4, 8): the
    user-defined text frame TXXX is multi-valued and merged by its
    [description]; a text frame such as TIT2 is single-valued. *)
Definition exampleOptions (frameIdentifier : string) : FrameOptions :=
  if bool_decide (frameIdentifier = "TXXX"%string)
  then {| multiple := true; updateCompareKey := Some "description"%string |}
  else {| multiple := false; updateCompareKey := None |}.

(** The record [{description, value}] of a user-defined text frame. *)
Definition userDefinedText (description value : string) : Item :=
  IObject [("description"%string, description); ("value"%string, value)].

(** A store with the raw tags [{TIT2: "old", TXXX: [{abc, deg}]}] in object
    1, the array being array 1. *)
Definition exampleHeap : Heap :=
  {| arrays := {[ 1%positive := [userDefinedText "abc" "deg"] ]};
     objects := {[ 1%positive :=
                     {[ "TIT2"%string := VItem (IString "old");
                        "TXXX"%string := VArray 1%positive ]} ]} |}.

Definition exampleTags : Tags := {| raw := Some 1%positive |}.

(** The write tags are given as raw entries already. *)
Definition exampleConvert (newTags : list (string * Value))
  : list (string * Value) := newTags.

(** ** The callers of embed and of the body reader *)

Section TagsOfFrames.

(** [buildFramesBuffer] of frames-builder.ts and [getTags] of
    frames-reader.ts are not among the sources: [createId3Tag] and
    [getTagsFromId3Tag] are given for any of them. *)
Context {WriteTags Options ReadTags : Type}.
Variable buildFramesBuffer : WriteTags -> Outcome Buffer.t.
Variable getTags : option TagBody -> Options -> Outcome ReadTags.

Definition createId3Tag (tags : WriteTags) : Outcome Buffer.t :=
  frames ← buildFramesBuffer tags;
  embedFramesInId3Tag frames.

Definition getTagsFromId3Tag (buffer : Buffer.t) (options : Options)
  : Outcome ReadTags :=
  tagBody ← getId3TagBody buffer;
  getTags tagBody options.

End TagsOfFrames.

(** No array of the store has fewer elements in [h'] than in [h]. *)
Definition grows (h h' : Heap) : Prop :=
  forall array,
    (List.length (readArray h array) <= List.length (readArray h' array))%nat.

(** [item'] is [item], or a record with the comparison value of [item]. *)
Definition sameCompareValue (compareKey : option string) (item item' : Item)
  : Prop :=
  item' = item \/
  exists key value,
    compareKey = Some key /\
    compareValue key item = Some value /\ compareValue key item' = Some value.

(** Every position of [existing] is a position of [merged], and holds the
    element it held or a record with the same comparison value. *)
Definition keepsPlaces (compareKey : option string) (existing merged : list Item)
  : Prop :=
  forall i item,
    existing !! i = Some item ->
    exists item', merged !! i = Some item' /\
                  sameCompareValue compareKey item item'.

(** The tag [embedFramesInId3Tag] builds around [frames]. *)
Definition tagOf (frames : Buffer.t) : Buffer.t :=
  Buffer.fromString "ID3" ++ Buffer.from [3; 0; 0]
  ++ encodeSize (Buffer.length frames) ++ frames.

(** * Properties *)

(** ** Bytes *)

Lemma byte_to_Z_range (b : byte) : 0 <= byte_to_Z b <= 255.
Proof.
  unfold byte_to_Z. pose proof (Byte.to_N_bounded b). lia.
Qed.

Lemma byte_to_Z_inj (a b : byte) : byte_to_Z a = byte_to_Z b -> a = b.
Proof.
  unfold byte_to_Z. intros H. apply N2Z.inj in H.
  pose proof (Byte.of_to_N a) as Ha. rewrite H, Byte.of_to_N in Ha.
  congruence.
Qed.

Lemma land_255_range (z : Z) : 0 <= Z.land z 255 <= 255.
Proof.
  assert (H : Z.land z 255 = z mod 2 ^ 8) by (apply (Z.land_ones z 8); lia).
  rewrite H. pose proof (Z.mod_pos_bound z (2 ^ 8)). lia.
Qed.

Lemma byte_to_Z_of_Z (z : Z) : byte_to_Z (byte_of_Z z) = Z.land z 255.
Proof.
  unfold byte_of_Z, byte_to_Z. pose proof (land_255_range z) as Hr.
  destruct (Byte.of_N (Z.to_N (Z.land z 255))) as [b|] eqn:Hb.
  - apply Byte.to_of_N in Hb. simpl. rewrite Hb. lia.
  - apply Byte.of_N_None_iff in Hb. lia.
Qed.

(** A mask with the single bit [k] tests that bit. *)
Lemma land_pow2_testbit (z k : Z) :
  0 <= k -> Z.land z (2 ^ k) = 0 <-> Z.testbit z k = false.
Proof.
  intros Hk. split.
  - intros H.
    assert (Hb : Z.testbit (Z.land z (2 ^ k)) k = false)
      by (rewrite H; apply Z.bits_0).
    rewrite Z.land_spec, Z.pow2_bits_true in Hb by lia.
    by rewrite andb_true_r in Hb.
  - intros H. apply Z.bits_inj'. intros n Hn.
    rewrite Z.land_spec, Z.bits_0, Z.pow2_bits_eqb by lia.
    destruct (Z.eqb_spec k n) as [<-|]; [by rewrite H | apply andb_false_r].
Qed.

(** Bit 7 is the only bit of the mask [128]. *)
Lemma land_128_testbit (z : Z) : Z.land z 128 = 0 <-> Z.testbit z 7 = false.
Proof. apply (land_pow2_testbit z 7). lia. Qed.

(** ** Reading a buffer *)

Lemma Buffer_get_nat (b : Buffer.t) (i : nat) :
  Buffer.get b (Z.of_nat i) = byte_to_Z <$> b !! i.
Proof.
  unfold Buffer.get. rewrite decide_True by lia. by rewrite Nat2Z.id.
Qed.

Lemma Buffer_subarray_take_drop (b : Buffer.t) (s e : nat) :
  (s <= e <= List.length b)%nat ->
  Buffer.subarray b (Z.of_nat s) (Z.of_nat e) = take (e - s) (drop s b).
Proof.
  intros H. unfold Buffer.subarray, Buffer.clampIndex, Buffer.length.
  rewrite !decide_False by lia.
  rewrite !Z.min_l by lia. rewrite Nat2Z.id. f_equal. lia.
Qed.

(** [subarray] with an [end] past the buffer stops at its end. *)
Lemma Buffer_subarray_clamped (b : Buffer.t) (s : nat) (e : Z) :
  (s <= List.length b)%nat -> Z.of_nat s <= e ->
  Buffer.subarray b (Z.of_nat s) e = take (Z.to_nat e - s) (drop s b).
Proof.
  intros Hs He. unfold Buffer.subarray, Buffer.clampIndex, Buffer.length.
  rewrite !decide_False by lia. rewrite (Z.min_l (Z.of_nat s)) by lia.
  rewrite Nat2Z.id.
  destruct (Z.min_spec e (Z.of_nat (List.length b))) as [[Hlt ->]|[Hge ->]].
  - f_equal. lia.
  - rewrite !take_ge; [done | rewrite length_drop; lia | rewrite length_drop; lia].
Qed.

Lemma Buffer_subarrayFrom_drop (b : Buffer.t) (s : nat) :
  Buffer.subarrayFrom b (Z.of_nat s) = drop s b.
Proof.
  unfold Buffer.subarrayFrom, Buffer.length.
  destruct (decide (s <= List.length b)%nat) as [Hs|Hs].
  - rewrite Buffer_subarray_take_drop by lia.
    apply take_ge. rewrite length_drop. lia.
  - unfold Buffer.subarray, Buffer.clampIndex, Buffer.length.
    rewrite !decide_False by lia. rewrite !Z.min_r by lia.
    rewrite Z.sub_diag. cbn [Z.to_nat take]. symmetry. apply drop_ge. lia.
Qed.

Lemma isValidEncodedSize_four (b0 b1 b2 b3 : byte) :
  isValidEncodedSize [b0; b1; b2; b3] = true <->
  Z.testbit (byte_to_Z b0) 7 = false /\ Z.testbit (byte_to_Z b1) 7 = false /\
  Z.testbit (byte_to_Z b2) 7 = false /\ Z.testbit (byte_to_Z b3) 7 = false.
Proof.
  unfold isValidEncodedSize. rewrite bool_decide_eq_true. cbn.
  rewrite land_128_testbit, !Z.lor_spec, !orb_false_iff. tauto.
Qed.

(** C8. [isValidEncodedSize] is true exactly when the bitwise OR of the four
    bytes has bit 7 clear, and false exactly when some byte of the group has
    its high bit set. *)
Theorem isValidEncodedSize_iff_high_bits_clear (b0 b1 b2 b3 : byte) :
  (isValidEncodedSize [b0; b1; b2; b3] = true <->
   Z.testbit
     (Z.lor (Z.lor (Z.lor (byte_to_Z b0) (byte_to_Z b1)) (byte_to_Z b2))
        (byte_to_Z b3)) 7 = false) /\
  (isValidEncodedSize [b0; b1; b2; b3] = false <->
   exists b, b ∈ [b0; b1; b2; b3] /\ Z.testbit (byte_to_Z b) 7 = true).
Proof.
  split.
  - rewrite isValidEncodedSize_four, !Z.lor_spec, !orb_false_iff. tauto.
  - rewrite <- not_true_iff_false, isValidEncodedSize_four. split.
    + intros Hn.
      destruct (Z.testbit (byte_to_Z b0) 7) eqn:H0; [exists b0; set_solver|].
      destruct (Z.testbit (byte_to_Z b1) 7) eqn:H1; [exists b1; set_solver|].
      destruct (Z.testbit (byte_to_Z b2) 7) eqn:H2; [exists b2; set_solver|].
      destruct (Z.testbit (byte_to_Z b3) 7) eqn:H3; [exists b3; set_solver|].
      tauto.
    + intros (b & Hin & Hb) (H0 & H1 & H2 & H3).
      rewrite !elem_of_cons, elem_of_nil in Hin.
      destruct Hin as [->|[->|[->|[->|[]]]]]; congruence.
Qed.

(** ** The locator *)

Lemma startsWith_ID3 (b : Buffer.t) :
  Buffer.startsWith b (Buffer.fromString Header.identifier) = true <->
  signatureAt b 0.
Proof.
  unfold signatureAt. change (Buffer.fromString Header.identifier)
    with ["I"%byte; "D"%byte; "3"%byte].
  destruct b as [|x0 [|x1 [|x2 rest]]]; cbn [Buffer.startsWith lookup list_lookup Nat.add];
    rewrite ?andb_true_iff, ?andb_true_r.
  - split; [done | by intros [? _]].
  - split; [intros [_ ?]; done | by intros (_ & ? & _)].
  - split; [intros (_ & _ & ?); done | by intros (_ & _ & ?)].
  - split.
    + intros (H0 & H1 & H2 & _).
      apply Byte.byte_dec_bl in H0, H1, H2. by subst.
    + intros (H0 & H1 & H2). by simplify_eq.
Qed.

Lemma signatureAt_drop (b : Buffer.t) (k : nat) :
  signatureAt (drop k b) 0 <-> signatureAt b k.
Proof.
  unfold signatureAt. rewrite !lookup_drop.
  replace (k + 0)%nat with k by lia. replace (k + (0 + 1))%nat with (k + 1)%nat by lia.
  by replace (k + (0 + 2))%nat with (k + 2)%nat by lia.
Qed.

Lemma signatureAt_length (b : Buffer.t) (k : nat) :
  signatureAt b k -> (k + 3 <= List.length b)%nat.
Proof.
  intros (_ & _ & H). apply lookup_lt_Some in H. lia.
Qed.

Lemma search_Some (needle b : Buffer.t) (k : nat) :
  Buffer.search needle b = Some k ->
  Buffer.startsWith (drop k b) needle = true /\
  (forall j, (j < k)%nat -> Buffer.startsWith (drop j b) needle = false).
Proof.
  revert k. induction b as [|x b IH]; intros k; cbn [Buffer.search].
  - destruct (Buffer.startsWith [] needle) eqn:Hs; [|done].
    intros [= <-]. split; [done | lia].
  - destruct (Buffer.startsWith (x :: b) needle) eqn:Hs.
    + intros [= <-]. split; [done | lia].
    + destruct (Buffer.search needle b) as [k'|] eqn:Hk; [|done].
      intros [= <-]. destruct (IH k' eq_refl) as [IH1 IH2]. split; [done|].
      intros [|j] Hj; [done|]. apply IH2. lia.
Qed.

Lemma search_None (needle b : Buffer.t) :
  Buffer.search needle b = None ->
  forall j, Buffer.startsWith (drop j b) needle = false.
Proof.
  induction b as [|x b IH]; cbn [Buffer.search].
  - destruct (Buffer.startsWith [] needle) eqn:Hs; [done|].
    intros _ j. by rewrite drop_nil.
  - destruct (Buffer.startsWith (x :: b) needle) eqn:Hs; [done|].
    destruct (Buffer.search needle b) eqn:Hk; [done|].
    intros _ [|j]; [done|]. by apply IH.
Qed.

(** [indexOf] from a start inside the buffer: the first signature from there
    on, or [-1] when there is none. *)
Lemma indexOf_ID3 (b : Buffer.t) (start : nat) :
  (start <= List.length b)%nat ->
  (Buffer.indexOf b Header.identifier (Z.of_nat start) = -1 /\
   forall q, (start <= q)%nat -> ~ signatureAt b q) \/
  (exists p, Buffer.indexOf b Header.identifier (Z.of_nat start) = Z.of_nat p /\
             (start <= p)%nat /\ signatureAt b p /\
             forall q, (start <= q < p)%nat -> ~ signatureAt b q).
Proof.
  intros Hstart. unfold Buffer.indexOf, Buffer.clampIndex, Buffer.length.
  rewrite decide_False by lia. rewrite Z.min_l by lia. rewrite Nat2Z.id.
  destruct (Buffer.search _ (drop start b)) as [k|] eqn:Hk.
  - right. exists (start + k)%nat. apply search_Some in Hk as [Hk1 Hk2].
    rewrite drop_drop in Hk1. split; [lia|]. split; [lia|]. split.
    + by apply signatureAt_drop, startsWith_ID3.
    + intros q Hq Hsig. specialize (Hk2 (q - start)%nat).
      rewrite drop_drop in Hk2. replace (start + (q - start))%nat with q in Hk2 by lia.
      apply signatureAt_drop, startsWith_ID3 in Hsig.
      rewrite Hk2 in Hsig by lia. done.
  - left. split; [done|]. intros q Hq Hsig.
    pose proof (search_None _ _ Hk (q - start)%nat) as Hn.
    rewrite drop_drop in Hn. replace (start + (q - start))%nat with q in Hn by lia.
    apply signatureAt_drop, startsWith_ID3 in Hsig. congruence.
Qed.

Lemma Array_indexOf_versions (z : Z) :
  Array_indexOf [0x02; 0x03; 0x04] (Some z) = -1 <-> z ∉ [2; 3; 4].
Proof.
  unfold Array_indexOf, Array_indexOf_from, strictEq.
  rewrite !elem_of_cons, elem_of_nil.
  repeat case_bool_decide; simplify_eq; split; intros H'; try done;
    try (exfalso; apply H'; tauto).
  intros [?|[?|[?|[]]]]; congruence.
Qed.

(** [isValidId3Header] returns, and returns [true] exactly for a buffer that
    starts with a valid tag header. *)
Lemma isValidId3Header_spec (b : Buffer.t) :
  exists valid, isValidId3Header b = Return valid /\
                (valid = true <-> validTagAt b 0).
Proof.
  destruct (decide (List.length b < 10)%nat) as [Hshort|Hlong].
  - exists false. split.
    + unfold isValidId3Header, Buffer.length, Header.size.
      rewrite decide_True by lia. done.
    + split; [done|]. intros [_ (? & ? & ? & ? & ? & s3 & _ & _ & _ & _ & _ & H9 & _)].
      apply lookup_lt_Some in H9. cbn in H9. lia.
  - do 10 (destruct b as [|? b]; [cbn in Hlong; lia|]). clear Hlong.
    set (buf := b0 :: b1 :: b2 :: b3 :: b4 :: b5 :: b6 :: b7 :: b8 :: b9 :: b).
    assert (Hlen : (10 <= List.length buf)%nat) by (cbn; lia).
    unfold isValidId3Header, Buffer.readUIntBE, subarray.
    unfold Header.size, Header.offset.identifier, Header.offset.version,
      Header.offset.revision, Header.offset.size.
    rewrite !decide_False by (unfold Buffer.length; lia).
    change (Buffer.subarray buf 0 (0 + 3))
      with (Buffer.subarray buf (Z.of_nat 0) (Z.of_nat 3)).
    change (Buffer.subarray buf 6 (6 + 4))
      with (Buffer.subarray buf (Z.of_nat 6) (Z.of_nat 10)).
    rewrite !Buffer_subarray_take_drop by lia.
    change (Buffer.get buf 3) with (Buffer.get buf (Z.of_nat 3)).
    change (Buffer.get buf 4) with (Buffer.get buf (Z.of_nat 4)).
    rewrite !Buffer_get_nat.
    subst buf. cbn [take drop Nat.sub lookup list_lookup fmap option_fmap option_map mbind Outcome_bind].
    unfold Buffer.bigEndian. cbn [foldl].
    rewrite take_0.
    assert (Hsig : ((0 * 256 + byte_to_Z b0) * 256 + byte_to_Z b1) * 256
                   + byte_to_Z b2 = 4801587
                   <-> b0 = "I"%byte /\ b1 = "D"%byte /\ b2 = "3"%byte).
    { split.
      - intros H. pose proof (byte_to_Z_range b0) as R0.
        pose proof (byte_to_Z_range b1) as R1.
        pose proof (byte_to_Z_range b2) as R2.
        assert (byte_to_Z b0 = byte_to_Z "I" /\ byte_to_Z b1 = byte_to_Z "D"
                /\ byte_to_Z b2 = byte_to_Z "3") as (E0 & E1 & E2)
          by (change (byte_to_Z "I") with 73; change (byte_to_Z "D") with 68;
              change (byte_to_Z "3") with 51; lia).
        auto using byte_to_Z_inj.
      - by intros (-> & -> & ->). }
    assert (Hchecks :
      validTagAt (b0 :: b1 :: b2 :: b3 :: b4 :: b5 :: b6 :: b7 :: b8 :: b9 :: b) 0
      <-> (b0 = "I"%byte /\ b1 = "D"%byte /\ b2 = "3"%byte) /\
          byte_to_Z b3 <> 255 /\ byte_to_Z b4 <> 255 /\
          byte_to_Z b3 ∈ [2; 3; 4] /\
          isValidEncodedSize [b6; b7; b8; b9] = true).
    { unfold validTagAt, signatureAt, headerChecksAt.
      cbn [Nat.add lookup list_lookup]. split.
      - intros [(? & ? & ?) (major & revision & s0 & s1 & s2 & s3 & Hl)].
        destruct Hl as (? & ? & ? & ? & ? & ? & ? & ? & ? & ?). by simplify_eq.
      - intros ((-> & -> & ->) & ? & ? & ? & ?). split; [done|].
        by exists b3, b4, b6, b7, b8, b9. }
    setoid_rewrite Hchecks. clear Hchecks.
    case_bool_decide as Hid; cbn [negb].
    2: { exists false. split; [done|]. split; [done|]. intros [Hs _].
         by apply Hsig in Hs. }
    apply Hsig in Hid. unfold strictEq.
    case_bool_decide as H3; [exists false; split; [done|]; split; [done|];
                             intros (_ & ? & _); congruence|].
    case_bool_decide as H4; [exists false; split; [done|]; split; [done|];
                             intros (_ & _ & ? & _); congruence|].
    cbn [orb]. case_bool_decide as Hv.
    { exists false. split; [done|]. split; [done|]. intros (_ & _ & _ & Hin & _).
      by apply Array_indexOf_versions in Hv. }
    exists (isValidEncodedSize [b6; b7; b8; b9]). split; [done|].
    split; [|tauto]. intros Hs.
    assert (byte_to_Z b3 ∈ [2; 3; 4]).
    { destruct (decide (byte_to_Z b3 ∈ [2; 3; 4])) as [|Hn]; [done|].
      by apply Array_indexOf_versions in Hn. }
    repeat split; try tauto; congruence.
Qed.

Lemma validTagAt_drop (b : Buffer.t) (k : nat) :
  validTagAt (drop k b) 0 <-> validTagAt b k.
Proof.
  unfold validTagAt, headerChecksAt. rewrite signatureAt_drop.
  rewrite !lookup_drop.
  replace (k + (0 + 3))%nat with (k + 3)%nat by lia.
  replace (k + (0 + 4))%nat with (k + 4)%nat by lia.
  replace (k + (0 + 6))%nat with (k + 6)%nat by lia.
  replace (k + (0 + 7))%nat with (k + 7)%nat by lia.
  replace (k + (0 + 8))%nat with (k + 8)%nat by lia.
  by replace (k + (0 + 9))%nat with (k + 9)%nat by lia.
Qed.

(** The loop, entered with every offset below [start] already ruled out and
    with fuel for the bytes that are left. *)
Lemma findId3TagPosition_loop_spec (fuel : nat) (buffer : Buffer.t) (start : nat) :
  (start <= List.length buffer)%nat ->
  (List.length buffer < fuel + start)%nat ->
  (forall q, (q < start)%nat -> ~ validTagAt buffer q) ->
  locates buffer (findId3TagPosition_loop fuel buffer (Z.of_nat start - 1)).
Proof.
  revert start. induction fuel as [|fuel IH]; intros start Hstart Hfuel Hbelow;
    [lia|].
  cbn [findId3TagPosition_loop].
  replace (Z.of_nat start - 1 + 1) with (Z.of_nat start) by lia.
  destruct (indexOf_ID3 buffer start Hstart)
    as [[-> Hnone]|(p & -> & Hp & Hsig & Hbetween)].
  - rewrite bool_decide_eq_false_2 by auto. left. split; [done|].
    intros q Hv. destruct (decide (q < start)%nat) as [Hlt|Hge].
    + by apply (Hbelow q Hlt).
    + apply (Hnone q); [lia | apply Hv].
  - rewrite bool_decide_eq_true_2 by lia.
    pose proof (signatureAt_length _ _ Hsig) as Hlen.
    rewrite Buffer_subarrayFrom_drop.
    destruct (isValidId3Header_spec (drop p buffer)) as (valid & -> & Hvalid).
    rewrite validTagAt_drop in Hvalid. cbn [mbind Outcome_bind].
    assert (Hbefore : forall q, (q < p)%nat -> ~ validTagAt buffer q).
    { intros q Hq Hv. destruct (decide (q < start)%nat) as [Hlt|Hge].
      - by apply (Hbelow q Hlt).
      - apply (Hbetween q); [lia | apply Hv]. }
    destruct valid.
    + right. exists p. split; [done|]. split; [by apply Hvalid | done].
    + replace (Z.of_nat p) with (Z.of_nat (S p) - 1) by lia.
      apply IH; [lia | lia |].
      intros q Hq. destruct (decide (q = p)) as [->|Hne].
      * intros Hv. apply Hvalid in Hv. done.
      * apply Hbefore. lia.
Qed.

Lemma findId3TagPosition_spec (buffer : Buffer.t) :
  locates buffer (findId3TagPosition buffer).
Proof.
  unfold findId3TagPosition.
  apply (findId3TagPosition_loop_spec (S (List.length buffer)) buffer 0); lia.
Qed.

(** C3. The locator returns the offset of the first occurrence of "ID3" whose
    header passes all the checks (versions not 0xFF, major version 2, 3 or 4,
    size bytes accepted by [isValidEncodedSize]); occurrences that fail a
    check are passed over; with no such occurrence it returns [-1]. *)
Theorem findId3TagPosition_first_valid_tag (buffer : Buffer.t) :
  (exists p : nat,
      findId3TagPosition buffer = Return (Z.of_nat p) /\
      signatureAt buffer p /\ headerChecksAt buffer p /\
      forall q : nat, (q < p)%nat ->
        ~ (signatureAt buffer q /\ headerChecksAt buffer q)) \/
  (findId3TagPosition buffer = Return (-1) /\
   forall q : nat, ~ (signatureAt buffer q /\ headerChecksAt buffer q)).
Proof.
  destruct (findId3TagPosition_spec buffer) as [[-> Hnone]|(p & -> & [Hs Hc] & Hmin)].
  - right. split; [done | exact Hnone].
  - left. exists p. split; [done|]. split; [done|]. split; [done|]. exact Hmin.
Qed.

(** ** A located tag *)

Lemma findId3TagPosition_located (buffer : Buffer.t) (p : nat) :
  findId3TagPosition buffer = Return (Z.of_nat p) -> validTagAt buffer p.
Proof.
  intros Hp. destruct (findId3TagPosition_spec buffer)
    as [[Hr _]|(p' & Hr & Hv & _)]; rewrite Hp in Hr; simplify_eq.
  - lia.
  - done.
Qed.

Lemma findId3TagPosition_cases (buffer : Buffer.t) :
  findId3TagPosition buffer = Return (-1) \/
  exists p : nat, findId3TagPosition buffer = Return (Z.of_nat p).
Proof.
  destruct (findId3TagPosition_spec buffer) as [[Hr _]|(p & Hr & _)]; eauto.
Qed.

(** The locator returns [-1] exactly when no offset holds a valid tag. *)
Lemma findId3TagPosition_none_iff (buffer : Buffer.t) :
  findId3TagPosition buffer = Return (-1) <-> forall q, ~ validTagAt buffer q.
Proof.
  destruct (findId3TagPosition_spec buffer) as [[Hr Hnone]|(p & Hr & Hv & _)];
    rewrite Hr.
  - by split.
  - split; [intros [= Hp]; lia | intros Hnone; by destruct (Hnone p)].
Qed.

(** The ten bytes of a located header. *)
Lemma validTagAt_bytes (buffer : Buffer.t) (p : nat) :
  validTagAt buffer p ->
  exists major revision flags s0 s1 s2 s3,
    drop p buffer = "I"%byte :: "D"%byte :: "3"%byte :: major :: revision
                      :: flags :: s0 :: s1 :: s2 :: s3 :: drop (p + 10) buffer /\
    byte_to_Z major ∈ [2; 3; 4] /\
    isValidEncodedSize [s0; s1; s2; s3] = true.
Proof.
  intros [(HI & HD & H3) (major & revision & s0 & s1 & s2 & s3 & Hc)].
  destruct Hc as (Hmajor & Hrev & H6 & H7 & H8 & H9 & _ & _ & Hin & Hvalid).
  assert (is_Some (buffer !! (p + 5)%nat)) as [flags Hflags].
  { apply lookup_lt_is_Some. apply lookup_lt_Some in H9. lia. }
  exists major, revision, flags, s0, s1, s2, s3. split; [|done].
  rewrite (drop_S _ _ _ HI).
  replace (S p) with (p + 1)%nat by lia. rewrite (drop_S _ _ _ HD).
  replace (S (p + 1)) with (p + 2)%nat by lia. rewrite (drop_S _ _ _ H3).
  replace (S (p + 2)) with (p + 3)%nat by lia. rewrite (drop_S _ _ _ Hmajor).
  replace (S (p + 3)) with (p + 4)%nat by lia. rewrite (drop_S _ _ _ Hrev).
  replace (S (p + 4)) with (p + 5)%nat by lia. rewrite (drop_S _ _ _ Hflags).
  replace (S (p + 5)) with (p + 6)%nat by lia. rewrite (drop_S _ _ _ H6).
  replace (S (p + 6)) with (p + 7)%nat by lia. rewrite (drop_S _ _ _ H7).
  replace (S (p + 7)) with (p + 8)%nat by lia. rewrite (drop_S _ _ _ H8).
  replace (S (p + 8)) with (p + 9)%nat by lia. rewrite (drop_S _ _ _ H9).
  by replace (S (p + 9)) with (p + 10)%nat by lia.
Qed.

Lemma decodeSize_nonneg (encodedSize : Buffer.t) : 0 <= decodeSize encodedSize.
Proof.
  unfold decodeSize.
  assert (H : forall z, 0 <= Z.land z 0x7F) by (intros z; apply Z.land_nonneg; lia).
  repeat apply Z.add_nonneg_nonneg; try apply Z.shiftl_nonneg; apply H.
Qed.

(** ** Strip *)

(** C9. When the locator finds no valid header, [removeId3Tag] returns the
    input buffer, not [false]. *)
Theorem removeId3Tag_without_tag (data : Buffer.t) :
  findId3TagPosition data = Return (-1) ->
  removeId3Tag data = Return (IsBuffer data).
Proof.
  intros Hnone. unfold removeId3Tag. rewrite Hnone. done.
Qed.

Lemma removeId3Tag_without_tag_witness :
  let data := Buffer.from [0x02; 0x06; 0x12; 0x22] in
  findId3TagPosition data = Return (-1) /\
  removeId3Tag data = Return (IsBuffer data).
Proof.
  split; [vm_compute; reflexivity|].
  apply (removeId3Tag_without_tag (Buffer.from [0x02; 0x06; 0x12; 0x22])).
  vm_compute. reflexivity.
Defined.

(** The size field that strip and the body reader take at a located tag is
    the one the locator has checked. *)
Lemma located_encodedSize (buffer : Buffer.t) (p : nat) :
  validTagAt buffer p ->
  subarray buffer (Z.of_nat p + Header.offset.size) 4
    = take 4 (drop (p + 6) buffer) /\
  isValidEncodedSize (take 4 (drop (p + 6) buffer)) = true /\
  (p + 10 <= List.length buffer)%nat.
Proof.
  intros Hv. destruct (validTagAt_bytes _ _ Hv)
    as (major & revision & flags & s0 & s1 & s2 & s3 & Hdrop & _ & Hvalid).
  assert (Hlen : (p + 10 <= List.length buffer)%nat).
  { apply (f_equal List.length) in Hdrop. rewrite length_drop in Hdrop.
    cbn [List.length] in Hdrop. lia. }
  split; [|split; [|done]].
  - unfold subarray, Header.offset.size.
    replace (Z.of_nat p + 6) with (Z.of_nat (p + 6)) by lia.
    replace (Z.of_nat (p + 6) + 4) with (Z.of_nat (p + 10)) by lia.
    rewrite Buffer_subarray_take_drop by lia. f_equal. lia.
  - rewrite <- drop_drop, Hdrop. exact Hvalid.
Qed.

(** C2, as the code has it. At a located tag the size field passes the
    validity check, and [removeId3Tag] returns the bytes before the offset
    followed by the bytes from offset + 10 + size on: exactly 10 + size
    bytes are gone when the buffer holds that many from the offset on,
    otherwise all bytes from the offset on; it does not return [false],
    which differs from the buffer the no-tag case returns. *)
Theorem removeId3Tag_located_tag (data : Buffer.t) (p : nat) :
  findId3TagPosition data = Return (Z.of_nat p) ->
  let encodedSize := take 4 (drop (p + 6) data) in
  let size := Z.to_nat (decodeSize encodedSize) in
  let result := take p data ++ drop (p + 10 + size) data in
  isValidEncodedSize encodedSize = true /\
  removeId3Tag data = Return (IsBuffer result) /\
  ((p + 10 + size <= List.length data)%nat ->
   removesExactly data p (10 + size) result) /\
  ((List.length data < p + 10 + size)%nat -> result = take p data) /\
  IsFalse <> IsBuffer data.
Proof.
  intros Hp encodedSize size result.
  pose proof (findId3TagPosition_located _ _ Hp) as Hv.
  destruct (located_encodedSize _ _ Hv) as (Hsub & Hvalid & Hlen).
  split; [exact Hvalid|]. split; [|split; [|split; [|done]]].
  - unfold removeId3Tag. rewrite Hp. cbn [mbind Outcome_bind].
    rewrite bool_decide_eq_false_2 by lia.
    rewrite Hsub, Hvalid. cbn [negb].
    rewrite bool_decide_eq_true_2 by (unfold Buffer.length, Header.size; lia).
    unfold Buffer.concat. cbn [mjoin list_join]. rewrite app_nil_r.
    pose proof (decodeSize_nonneg (take 4 (drop (p + 6) data))) as Hnn.
    replace (Z.of_nat p + decodeSize (take 4 (drop (p + 6) data)) + Header.size)
      with (Z.of_nat (p + 10 + size))
      by (unfold Header.size; subst size encodedSize; lia).
    rewrite Buffer_subarrayFrom_drop.
    change 0 with (Z.of_nat 0). rewrite Buffer_subarray_take_drop by lia.
    rewrite drop_0, Nat.sub_0_r. done.
  - intros Hfits. exists (take p data), (take (10 + size) (drop p data)),
      (drop (p + 10 + size) data).
    split; [|split; [|split; [|done]]].
    + rewrite <- (take_drop p data) at 1. f_equal.
      rewrite <- (take_drop (10 + size) (drop p data)) at 1. f_equal.
      rewrite drop_drop. f_equal. lia.
    + rewrite length_take. lia.
    + rewrite length_take, length_drop. lia.
  - intros Hshort. subst result. rewrite drop_ge by lia. apply app_nil_r.
Qed.

Lemma removeId3Tag_located_tag_witness :
  let data :=
    Buffer.from [0x02; 0x49; 0x44; 0x33; 3; 0; 0; 0; 0; 0; 2; 0xAA; 0xBB; 0x22] in
  findId3TagPosition data = Return 1 /\
  removeId3Tag data = Return (IsBuffer (Buffer.from [0x02; 0x22])).
Proof.
  split; [vm_compute; reflexivity|].
  apply (removeId3Tag_located_tag
           (Buffer.from [0x02; 0x49; 0x44; 0x33; 3; 0; 0; 0; 0; 0; 2; 0xAA; 0xBB; 0x22])
           1).
  vm_compute. reflexivity.
Defined.

(** A tag that declares more bytes than the buffer holds: ten bytes, a
    header with size 127. Strip removes all ten bytes, not 137. *)
Lemma removeId3Tag_truncated_tag :
  let data := Buffer.from [0x49; 0x44; 0x33; 3; 0; 0; 0; 0; 0; 0x7F] in
  findId3TagPosition data = Return 0 /\
  removeId3Tag data = Return (IsBuffer []) /\
  ~ stripsWholeTag data 0.
Proof.
  split; [by vm_compute|]. split; [by vm_compute|].
  unfold stripsWholeTag. intros H.
  destruct H as (result & _ & before & removed & after & Hdata & _ & Hcount & _);
    [by vm_compute|].
  apply (f_equal List.length) in Hdata. rewrite !length_app, Hcount in Hdata.
  set (size := Z.to_nat (decodeSize _)) in Hdata.
  assert (Hsize : size = 127%nat) by (by vm_compute).
  cbn [List.length Buffer.from fmap list_fmap] in Hdata. lia.
Qed.

(** ** The size codec *)

Lemma land_127_mod (z : Z) : Z.land z 0x7F = z mod 128.
Proof. apply (Z.land_ones z 7). lia. Qed.

Lemma encodeSize_byte (n : Z) (shift : Z) :
  0 <= shift ->
  byte_to_Z (byte_of_Z (Z.land (Z.shiftr n shift) 0x7F)) = (n / 2 ^ shift) mod 128.
Proof.
  intros Hs. rewrite byte_to_Z_of_Z, land_127_mod, Z.shiftr_div_pow2 by lia.
  assert (H : Z.land ((n / 2 ^ shift) mod 128) 255 = ((n / 2 ^ shift) mod 128) mod 2 ^ 8)
    by (apply (Z.land_ones _ 8); lia).
  rewrite H. pose proof (Z.mod_pos_bound (n / 2 ^ shift) 128).
  apply Z.mod_small. lia.
Qed.

Lemma encodeSize_low_byte (n : Z) :
  byte_to_Z (byte_of_Z (Z.land n 0x7F)) = n mod 128.
Proof.
  pose proof (encodeSize_byte n 0) as H. rewrite Z.shiftr_0_r in H.
  rewrite H by lia. change (2 ^ 0) with 1. by rewrite Z.div_1_r.
Qed.

(** The four numbers a size is encoded as. *)
Lemma encodeSize_values (n : Z) :
  byte_to_Z <$> encodeSize n
  = [ (n / 2 ^ 21) mod 128; (n / 2 ^ 14) mod 128; (n / 2 ^ 7) mod 128; n mod 128 ].
Proof.
  unfold encodeSize, Buffer.from. cbn [fmap list_fmap].
  by rewrite !encodeSize_byte, encodeSize_low_byte by lia.
Qed.

Lemma encodeSize_length (n : Z) : List.length (encodeSize n) = 4%nat.
Proof. done. Qed.

Lemma encodeSize_valid (n : Z) : isValidEncodedSize (encodeSize n) = true.
Proof.
  pose proof (encodeSize_values n) as Hv.
  unfold encodeSize, Buffer.from in *. cbn [fmap list_fmap] in *.
  apply isValidEncodedSize_four. simplify_eq.
  assert (Hbit : forall z, Z.testbit (z mod 128) 7 = false).
  { intros z. change 128 with (2 ^ 7). apply Z.mod_pow2_bits_high. lia. }
  rewrite H, H0, H1, H2. auto.
Qed.

Lemma decodeSize_four (b0 b1 b2 b3 : byte) :
  decodeSize [b0; b1; b2; b3]
  = Z.shiftl (Z.land (byte_to_Z b0) 0x7F) 21 +
    Z.shiftl (Z.land (byte_to_Z b1) 0x7F) 14 +
    Z.shiftl (Z.land (byte_to_Z b2) 0x7F) 7 +
    Z.land (byte_to_Z b3) 0x7F.
Proof. reflexivity. Qed.

(** The round trip of the spec (4.1), for the sizes the encoding supports. *)
Lemma decodeSize_encodeSize (n : Z) :
  0 <= n < 2 ^ 28 -> decodeSize (encodeSize n) = n.
Proof.
  intros Hn. pose proof (encodeSize_values n) as Hv.
  unfold encodeSize, Buffer.from in *.
  cbn [fmap list_fmap] in *. simplify_eq.
  rewrite decodeSize_four, H, H0, H1, H2.
  rewrite !land_127_mod, !Z.shiftl_mul_pow2 by lia.
  rewrite !Z.mod_mod by lia.
  change (2 ^ 21) with 2097152. change (2 ^ 14) with 16384.
  change (2 ^ 7) with 128. change (2 ^ 28) with 268435456 in Hn.
  Z.div_mod_to_equations. lia.
Qed.

(** ** Embed *)

(** C4. [embedFramesInId3Tag] returns a ten-byte header followed by the frame
    bytes unchanged; the header is "ID3", major version 3, revision 0, flags
    0 and the four bytes of [encodeSize] of the length of the frame bytes,
    which are a valid synchsafe group and decode to that length when it is
    below 2^28; the frame bytes are the only input. *)
Theorem embedFramesInId3Tag_header (frames : Buffer.t) :
  let size := encodeSize (Buffer.length frames) in
  let header := Buffer.fromString "ID3" ++ Buffer.from [3; 0; 0] ++ size in
  embedFramesInId3Tag frames = Return (header ++ frames) /\
  List.length header = 10%nat /\
  isValidEncodedSize size = true /\
  byte_to_Z <$> size
  = [ (Buffer.length frames / 2 ^ 21) mod 128;
      (Buffer.length frames / 2 ^ 14) mod 128;
      (Buffer.length frames / 2 ^ 7) mod 128;
      Buffer.length frames mod 128 ] /\
  (Buffer.length frames < 2 ^ 28 -> decodeSize size = Buffer.length frames).
Proof.
  intros size header. split; [|split; [done|split; [|split]]].
  - subst header size.
    unfold embedFramesInId3Tag, encodeSize, Buffer.from. cbn [fmap list_fmap].
    generalize (byte_of_Z (Z.land (Z.shiftr (Buffer.length frames) 21) 127))
               (byte_of_Z (Z.land (Z.shiftr (Buffer.length frames) 14) 127))
               (byte_of_Z (Z.land (Z.shiftr (Buffer.length frames) 7) 127))
               (byte_of_Z (Z.land (Buffer.length frames) 127)).
    intros s0 s1 s2 s3.
    transitivity
      (Return (Buffer.concat
                 [Buffer.fromString "ID3"
                    ++ [byte_of_Z 3; byte_of_Z 0; byte_of_Z 0]
                    ++ [s0; s1; s2; s3];
                  frames])).
    + vm_compute. reflexivity.
    + unfold Buffer.concat. cbn [mjoin list_join]. by rewrite app_nil_r.
  - apply encodeSize_valid.
  - apply encodeSize_values.
  - intros H. apply decodeSize_encodeSize. unfold Buffer.length in *. lia.
Qed.

Lemma embedFramesInId3Tag_header_witness :
  let frames := Buffer.from [0x54; 0x49; 0x54; 0x32; 0; 0; 0; 0; 0; 0] in
  embedFramesInId3Tag frames
  = Return (Buffer.from [0x49; 0x44; 0x33; 3; 0; 0; 0; 0; 0; 10] ++ frames) /\
  decodeSize (encodeSize (Buffer.length frames)) = 10.
Proof.
  pose proof (embedFramesInId3Tag_header
                (Buffer.from [0x54; 0x49; 0x54; 0x32; 0; 0; 0; 0; 0; 0]))
    as (Hembed & _ & _ & _ & Hdecode).
  split; [exact Hembed | apply Hdecode; vm_compute; reflexivity].
Defined.

(** ** The tag body *)

(** [Buffer.alloc] of the body and the copy into it, before the rest [k] of
    the function. *)
Lemma alloc_copy {A} (k : Buffer.t -> Outcome A) (tagData : Buffer.t)
    (tagSize : Z) (total : nat) :
  (total <= List.length tagData)%nat ->
  Buffer.length tagData <= tagSize ->
  Buffer.alloc (tagSize - Z.of_nat total)
    ≫= (fun body => Buffer.copy tagData body 0 (Z.of_nat total) ≫= k)
  = k (drop total tagData
       ++ replicate (Z.to_nat tagSize - List.length tagData) Byte.x00).
Proof.
  intros Htotal Hsize. unfold Buffer.alloc, Buffer.length in *.
  rewrite decide_False by lia. cbn [mbind Outcome_bind].
  unfold Buffer.copy, Buffer.length. rewrite !decide_False by lia.
  rewrite length_replicate, Nat2Z.id.
  destruct (decide (Z.of_nat (Z.to_nat (tagSize - Z.of_nat total)) <= 0)) as [Hz|Hnz].
  - replace (Z.to_nat (tagSize - Z.of_nat total)) with 0%nat by lia.
    rewrite drop_ge by lia.
    by replace (Z.to_nat tagSize - List.length tagData)%nat with 0%nat by lia.
  - unfold Buffer.blit. rewrite length_replicate.
    change (Z.to_nat 0) with 0%nat. rewrite take_0, Nat.sub_0_r.
    cbn [app Nat.add].
    rewrite take_ge by (rewrite length_drop; lia).
    rewrite drop_replicate, length_drop. cbn [mbind Outcome_bind].
    do 3 f_equal. lia.
Qed.

Lemma bigEndian_nonneg (bytes : Buffer.t) : 0 <= Buffer.bigEndian bytes.
Proof.
  unfold Buffer.bigEndian.
  assert (H : forall acc, 0 <= acc ->
                0 <= foldl (fun acc b => acc * 256 + byte_to_Z b) acc bytes).
  { induction bytes as [|b bytes IH]; intros acc Hacc; cbn [foldl]; [done|].
    apply IH. pose proof (byte_to_Z_range b). lia. }
  by apply H.
Qed.

Lemma flagBit_testbit (flags : byte) (k : Z) :
  0 <= k -> flagBit (Some (byte_to_Z flags)) (2 ^ k) = Z.testbit (byte_to_Z flags) k.
Proof.
  intros Hk. unfold flagBit, toInt32. cbn [default].
  pose proof (land_pow2_testbit (byte_to_Z flags) k Hk) as H.
  case_bool_decide as Hl; cbn [negb].
  - symmetry. by apply H.
  - destruct (Z.testbit (byte_to_Z flags) k); [done|]. exfalso. apply Hl. by apply H.
Qed.

(** The flags of a ten-byte header. *)
Lemma parseTagHeaderFlags_header (i d t major revision flags s0 s1 s2 s3 : byte) :
  let header := [i; d; t; major; revision; flags; s0; s1; s2; s3] in
  (byte_to_Z major = 3 ->
   parseTagHeaderFlags header
   = {| unsynchronisation := Some (Z.testbit (byte_to_Z flags) 7);
        extendedHeader := Some (Z.testbit (byte_to_Z flags) 6);
        experimentalIndicator := Some (Z.testbit (byte_to_Z flags) 5);
        footerPresent := None |}) /\
  (byte_to_Z major = 4 ->
   parseTagHeaderFlags header
   = {| unsynchronisation := Some (Z.testbit (byte_to_Z flags) 7);
        extendedHeader := Some (Z.testbit (byte_to_Z flags) 6);
        experimentalIndicator := Some (Z.testbit (byte_to_Z flags) 5);
        footerPresent := Some (Z.testbit (byte_to_Z flags) 4) |}) /\
  (byte_to_Z major <> 3 -> byte_to_Z major <> 4 ->
   parseTagHeaderFlags header = noFlags).
Proof.
  intros header. unfold parseTagHeaderFlags.
  rewrite decide_False
    by (unfold Buffer.length, Header.size; subst header; cbn [List.length]; lia).
  change (Buffer.get header 3) with (Some (byte_to_Z major)).
  change (Buffer.get header 5) with (Some (byte_to_Z flags)).
  unfold strictEq.
  change 128 with (2 ^ 7). change 64 with (2 ^ 6). change 32 with (2 ^ 5).
  change 16 with (2 ^ 4). rewrite !flagBit_testbit by lia.
  split; [|split].
  - intros ->. by rewrite bool_decide_eq_true_2.
  - intros ->. rewrite bool_decide_eq_false_2 by done.
    by rewrite bool_decide_eq_true_2.
  - intros H3 H4. rewrite !bool_decide_eq_false_2 by congruence. done.
Qed.

(** [getId3TagBody] at a located tag, up to the extended header: the tag
    data starts with the ten header bytes the locator has checked. *)
Lemma getId3TagBody_located (buffer : Buffer.t) (p : nat) :
  findId3TagPosition buffer = Return (Z.of_nat p) ->
  exists major revision flags s0 s1 s2 s3 rest,
    let tagData := tagDataAt buffer p in
    let tagHeader :=
      ["I"%byte; "D"%byte; "3"%byte; major; revision; flags; s0; s1; s2; s3] in
    let size := decodeSize (take 4 (drop (p + 6) buffer)) in
    tagData = tagHeader ++ rest /\
    buffer !! (p + 3)%nat = Some major /\
    buffer !! (p + 5)%nat = Some flags /\
    byte_to_Z major ∈ [2; 3; 4] /\
    0 <= size /\
    Buffer.length tagData <= 10 + size /\
    getId3TagBody buffer
    = (extendedHeaderSize ←
         (if truthy (extendedHeader (parseTagHeaderFlags tagHeader)) then
            if strictEq (Some (byte_to_Z major)) 3 then
              n ← Buffer.readUInt32BE tagData Header.size; mret (4 + n)
            else if strictEq (Some (byte_to_Z major)) 4 then
              mret (decodeSize (subarray tagData Header.size 4))
            else mret 0
          else mret 0);
       body ← Buffer.alloc (10 + size - (10 + extendedHeaderSize));
       body ← Buffer.copy tagData body 0 (10 + extendedHeaderSize);
       mret (Some {| version := Some (byte_to_Z major); buffer := body |})).
Proof.
  intros Hp. pose proof (findId3TagPosition_located _ _ Hp) as Hv.
  destruct (located_encodedSize _ _ Hv) as (Hsub & _ & Hlen).
  destruct (validTagAt_bytes _ _ Hv)
    as (major & revision & flags & s0 & s1 & s2 & s3 & Hdrop & Hin & _).
  pose proof (decodeSize_nonneg (take 4 (drop (p + 6) buffer))) as Hnn.
  set (size := decodeSize (take 4 (drop (p + 6) buffer))) in *.
  exists major, revision, flags, s0, s1, s2, s3,
    (take (Z.to_nat size) (drop (p + 10) buffer)).
  intros tagData tagHeader size'. subst size'.
  assert (Hdata : tagData
                  = tagHeader ++ take (Z.to_nat size) (drop (p + 10) buffer)).
  { subst tagData. unfold tagDataAt. fold size. rewrite Hdrop.
    do 10 (rewrite Nat.add_succ_l || rewrite firstn_cons). done. }
  split; [exact Hdata|].
  split. { apply (f_equal (.!! 3%nat)) in Hdrop. by rewrite lookup_drop in Hdrop. }
  split. { apply (f_equal (.!! 5%nat)) in Hdrop. by rewrite lookup_drop in Hdrop. }
  split; [exact Hin|]. split; [exact Hnn|]. split.
  { rewrite Hdata. unfold Buffer.length. rewrite length_app, length_take.
    subst tagHeader. cbn [List.length]. lia. }
  unfold getId3TagBody. rewrite Hp. cbn [mbind Outcome_bind].
  rewrite bool_decide_eq_false_2 by lia. rewrite Hsub. fold size.
  assert (Hsubdata : subarray buffer (Z.of_nat p) (Header.size + size) = tagData).
  { unfold subarray, Header.size. rewrite Buffer_subarray_clamped by lia.
    subst tagData. unfold tagDataAt. fold size. f_equal. lia. }
  rewrite Hsubdata.
  assert (Hheader : Buffer.subarray tagData 0 Header.size = tagHeader).
  { change 0 with (Z.of_nat 0). change Header.size with (Z.of_nat 10).
    rewrite Buffer_subarray_take_drop
      by (rewrite Hdata, length_app; subst tagHeader; cbn [List.length]; lia).
    rewrite Hdata. done. }
  rewrite Hheader.
  change (Buffer.get tagHeader Header.offset.version)
    with (Some (byte_to_Z major)).
  done.
Qed.

(** C5. At a located tag whose extended-header flag (bit 6 of the flags
    byte) is set, the body starts after the extended header: for major
    version 3 its size is 4 plus the big-endian number in the four bytes
    after the ten-byte header, for major version 4 it is the synchsafe
    number in those four bytes; with the flag clear the body starts right
    after the ten-byte header. The extended header is to lie inside the tag
    data the buffer holds. *)
Theorem getId3TagBody_extended_header (buffer : Buffer.t) (p : nat)
    (major flags : byte) :
  findId3TagPosition buffer = Return (Z.of_nat p) ->
  buffer !! (p + 3)%nat = Some major ->
  buffer !! (p + 5)%nat = Some flags ->
  let tagData := tagDataAt buffer p in
  let lengthBytes := take 4 (drop 10 tagData) in
  (Z.testbit (byte_to_Z flags) 6 = true -> byte_to_Z major = 3 ->
   let extendedHeaderSize := 4 + Buffer.bigEndian lengthBytes in
   10 + extendedHeaderSize <= Buffer.length tagData ->
   getId3TagBody buffer
   = Return (Some {| version := Some 3;
                     buffer := bodyAfter buffer p
                                 (Z.to_nat (10 + extendedHeaderSize)) |})) /\
  (Z.testbit (byte_to_Z flags) 6 = true -> byte_to_Z major = 4 ->
   let extendedHeaderSize := decodeSize lengthBytes in
   10 + extendedHeaderSize <= Buffer.length tagData ->
   getId3TagBody buffer
   = Return (Some {| version := Some 4;
                     buffer := bodyAfter buffer p
                                 (Z.to_nat (10 + extendedHeaderSize)) |})) /\
  (Z.testbit (byte_to_Z flags) 6 = false ->
   getId3TagBody buffer
   = Return (Some {| version := Some (byte_to_Z major);
                     buffer := bodyAfter buffer p 10 |})).
Proof.
  intros Hp Hmajor Hflags tagData lengthBytes.
  destruct (getId3TagBody_located _ _ Hp)
    as (major' & revision & flags' & s0 & s1 & s2 & s3 & rest & Hl).
  cbn zeta in Hl.
  destruct Hl as (Hdata & Hmajor' & Hflags' & Hin & Hnn & Hlen & ->).
  rewrite Hmajor in Hmajor'. injection Hmajor' as <-.
  rewrite Hflags in Hflags'. injection Hflags' as <-.
  fold tagData in Hdata, Hlen |- *.
  set (size := decodeSize (take 4 (drop (p + 6) buffer))) in *.
  assert (Hten : (10 <= List.length tagData)%nat)
    by (rewrite Hdata, length_app; cbn [List.length]; lia).
  destruct (parseTagHeaderFlags_header "I" "D" "3" major revision flags s0 s1 s2 s3)
    as (Hv3 & Hv4 & Hother).
  cbn zeta in Hv3, Hv4, Hother.
  unfold bodyAfter. fold tagData size.
  split; [|split].
  - intros Hbit H3 Hfits.
    set (ext := 4 + Buffer.bigEndian lengthBytes) in *.
    pose proof (bigEndian_nonneg lengthBytes) as Hlength.
    assert (H14 : (14 <= List.length tagData)%nat)
      by (unfold Buffer.length in Hfits; lia).
    rewrite (Hv3 H3), Hbit, H3.
    cbn [extendedHeader truthy default from_option id]. unfold strictEq.
    rewrite bool_decide_eq_true_2 by done.
    unfold Buffer.readUInt32BE, Buffer.readUIntBE, Header.size.
    rewrite decide_False by (unfold Buffer.length; lia).
    change (Buffer.subarray tagData 10 (10 + 4))
      with (Buffer.subarray tagData (Z.of_nat 10) 14).
    rewrite Buffer_subarray_clamped by lia.
    change (Z.to_nat 14 - 10)%nat with 4%nat.
    fold lengthBytes. cbn [mbind Outcome_bind mret Outcome_ret]. fold ext.
    pose proof (bigEndian_nonneg lengthBytes).
    set (total := Z.to_nat (10 + ext)).
    assert (Hext : 10 + ext = Z.of_nat total) by lia. rewrite Hext.
    rewrite alloc_copy by (unfold Buffer.length in *; lia).
    by replace (Z.to_nat (10 + size)) with (10 + Z.to_nat size)%nat by lia.
  - intros Hbit H4 Hfits.
    set (ext := decodeSize lengthBytes) in *.
    rewrite (Hv4 H4), Hbit, H4.
    cbn [extendedHeader truthy default from_option id]. unfold strictEq.
    rewrite bool_decide_eq_false_2 by done.
    rewrite bool_decide_eq_true_2 by done.
    unfold subarray, Header.size.
    change (Buffer.subarray tagData 10 (10 + 4))
      with (Buffer.subarray tagData (Z.of_nat 10) 14).
    rewrite Buffer_subarray_clamped by lia.
    change (Z.to_nat 14 - 10)%nat with 4%nat.
    fold lengthBytes. cbn [mbind Outcome_bind mret Outcome_ret]. fold ext.
    pose proof (decodeSize_nonneg lengthBytes).
    set (total := Z.to_nat (10 + ext)).
    assert (Hext : 10 + ext = Z.of_nat total) by lia. rewrite Hext.
    rewrite alloc_copy by (unfold Buffer.length in *; lia).
    by replace (Z.to_nat (10 + size)) with (10 + Z.to_nat size)%nat by lia.
  - intros Hbit.
    assert (Hclear : truthy (extendedHeader
                      (parseTagHeaderFlags
                         ["I"%byte; "D"%byte; "3"%byte; major; revision; flags;
                          s0; s1; s2; s3])) = false).
    { destruct (decide (byte_to_Z major = 3)) as [H3|H3];
        [by rewrite (Hv3 H3), Hbit|].
      destruct (decide (byte_to_Z major = 4)) as [H4|H4];
        [by rewrite (Hv4 H4), Hbit|].
      by rewrite (Hother H3 H4). }
    rewrite Hclear. cbn [mbind Outcome_bind mret Outcome_ret].
    change (10 + 0) with (Z.of_nat 10).
    rewrite alloc_copy by (unfold Buffer.length in *; lia).
    by replace (Z.to_nat (10 + size)) with (10 + Z.to_nat size)%nat by lia.
Qed.

(** Past the tag data there is nothing to copy from: the allocation or the
    copy throws. *)
Lemma alloc_copy_overrun {A} (k : Buffer.t -> Outcome A) (tagData : Buffer.t)
    (tagSize total : Z) :
  Buffer.length tagData < total ->
  exists e,
    Buffer.alloc (tagSize - total)
      ≫= (fun body => Buffer.copy tagData body 0 total ≫= k)
    = Throws e.
Proof.
  intros Hover. unfold Buffer.alloc.
  destruct (decide (tagSize - total < 0)); [by eexists|].
  cbn [mbind Outcome_bind]. unfold Buffer.copy.
  rewrite decide_False by lia. rewrite decide_True by lia. by eexists.
Qed.

(** X10. The hypothesis of the theorem above is needed: with the flag set
    and an extended header that ends past the tag data the buffer holds,
    [getId3TagBody] throws. *)
Lemma getId3TagBody_extended_header_overrun (buffer : Buffer.t) (p : nat)
    (major flags : byte) :
  findId3TagPosition buffer = Return (Z.of_nat p) ->
  buffer !! (p + 3)%nat = Some major ->
  buffer !! (p + 5)%nat = Some flags ->
  Z.testbit (byte_to_Z flags) 6 = true ->
  let tagData := tagDataAt buffer p in
  let lengthBytes := take 4 (drop 10 tagData) in
  (byte_to_Z major = 3 /\
   Buffer.length tagData < 10 + (4 + Buffer.bigEndian lengthBytes)) \/
  (byte_to_Z major = 4 /\
   Buffer.length tagData < 10 + decodeSize lengthBytes) ->
  exists e, getId3TagBody buffer = Throws e.
Proof.
  intros Hp Hmajor Hflags Hbit tagData lengthBytes Hover.
  destruct (getId3TagBody_located _ _ Hp)
    as (major' & revision & flags' & s0 & s1 & s2 & s3 & rest & Hl).
  cbn zeta in Hl.
  destruct Hl as (Hdata & Hmajor' & Hflags' & Hin & Hnn & Hlen & ->).
  rewrite Hmajor in Hmajor'. injection Hmajor' as <-.
  rewrite Hflags in Hflags'. injection Hflags' as <-.
  fold tagData in Hdata, Hlen |- *.
  assert (Hten : (10 <= List.length tagData)%nat)
    by (rewrite Hdata, length_app; cbn [List.length]; lia).
  destruct (parseTagHeaderFlags_header "I" "D" "3" major revision flags s0 s1 s2 s3)
    as (Hv3 & Hv4 & _).
  cbn zeta in Hv3, Hv4. unfold strictEq.
  destruct Hover as [[H3 Hover]|[H4 Hover]].
  - rewrite (Hv3 H3), Hbit, H3.
    cbn [extendedHeader truthy default from_option id].
    rewrite bool_decide_eq_true_2 by done.
    unfold Buffer.readUInt32BE, Buffer.readUIntBE, Header.size.
    destruct (decide (10 < 0 \/ Buffer.length tagData < 10 + 4)); [by eexists|].
    change (Buffer.subarray tagData 10 (10 + 4))
      with (Buffer.subarray tagData (Z.of_nat 10) 14).
    rewrite Buffer_subarray_clamped by lia.
    change (Z.to_nat 14 - 10)%nat with 4%nat. fold lengthBytes.
    cbn [mbind Outcome_bind mret Outcome_ret].
    by apply alloc_copy_overrun.
  - rewrite (Hv4 H4), Hbit, H4.
    cbn [extendedHeader truthy default from_option id].
    rewrite bool_decide_eq_false_2 by done.
    rewrite bool_decide_eq_true_2 by done.
    unfold subarray, Header.size.
    change (Buffer.subarray tagData 10 (10 + 4))
      with (Buffer.subarray tagData (Z.of_nat 10) 14).
    rewrite Buffer_subarray_clamped by lia.
    change (Z.to_nat 14 - 10)%nat with 4%nat. fold lengthBytes.
    cbn [mbind Outcome_bind mret Outcome_ret].
    by apply alloc_copy_overrun.
Qed.

Lemma getId3TagBody_extended_header_witness :
  let data :=
    Buffer.from [0x49; 0x44; 0x33; 3; 0; 0x40; 0; 0; 0; 10;
                 0; 0; 0; 2; 0xAA; 0xBB; 1; 2; 3; 4] in
  findId3TagPosition data = Return 0 /\
  getId3TagBody data
  = Return (Some {| version := Some 3; buffer := Buffer.from [1; 2; 3; 4] |}).
Proof.
  split; [vm_compute; reflexivity|].
  refine (proj1 (getId3TagBody_extended_header
                   (Buffer.from [0x49; 0x44; 0x33; 3; 0; 0x40; 0; 0; 0; 10;
                                 0; 0; 0; 2; 0xAA; 0xBB; 1; 2; 3; 4])
                   0 Byte.x03 Byte.x40 _ _ _) _ _ _);
    try (vm_compute; reflexivity).
  vm_compute. discriminate.
Defined.

(** C10. At a located tag whose major version byte is neither 3 nor 4 (so it
    is 2), [parseTagHeaderFlags] returns the empty flag record whatever the
    flags byte holds, and the body is taken from right after the ten-byte
    header: no extended header is skipped. *)
Theorem getId3TagBody_legacy_version (buffer : Buffer.t) (p : nat)
    (major : byte) :
  findId3TagPosition buffer = Return (Z.of_nat p) ->
  buffer !! (p + 3)%nat = Some major ->
  byte_to_Z major <> 3 -> byte_to_Z major <> 4 ->
  byte_to_Z major = 2 /\
  parseTagHeaderFlags (take 10 (tagDataAt buffer p)) = noFlags /\
  getId3TagBody buffer
  = Return (Some {| version := Some 2; buffer := bodyAfter buffer p 10 |}).
Proof.
  intros Hp Hmajor H3 H4.
  destruct (getId3TagBody_located _ _ Hp)
    as (major' & revision & flags & s0 & s1 & s2 & s3 & rest & Hl).
  cbn zeta in Hl.
  destruct Hl as (Hdata & Hmajor' & _ & Hin & Hnn & Hlen & ->).
  rewrite Hmajor in Hmajor'. injection Hmajor' as <-.
  destruct (parseTagHeaderFlags_header "I" "D" "3" major revision flags s0 s1 s2 s3)
    as (_ & _ & Hother).
  cbn zeta in Hother. specialize (Hother H3 H4).
  assert (H2 : byte_to_Z major = 2).
  { rewrite !elem_of_cons, elem_of_nil in Hin. lia. }
  split; [exact H2|]. split.
  - rewrite Hdata. exact Hother.
  - rewrite Hother, H2. cbn [extendedHeader noFlags truthy default from_option].
    cbn [mbind Outcome_bind mret Outcome_ret].
    change (10 + 0) with (Z.of_nat 10).
    rewrite alloc_copy.
    + unfold bodyAfter. cbn [mret Outcome_ret].
      by replace (Z.to_nat (10 + decodeSize (take 4 (drop (p + 6) buffer))))
        with (10 + Z.to_nat (decodeSize (take 4 (drop (p + 6) buffer))))%nat by lia.
    + rewrite Hdata, length_app. cbn [List.length]. lia.
    + exact Hlen.
Qed.

Lemma getId3TagBody_legacy_version_witness :
  let data :=
    Buffer.from [0x49; 0x44; 0x33; 2; 0; 0x40; 0; 0; 0; 6; 0; 0; 0; 2; 7; 8] in
  findId3TagPosition data = Return 0 /\
  getId3TagBody data
  = Return (Some {| version := Some 2;
                    buffer := Buffer.from [0; 0; 0; 2; 7; 8] |}).
Proof.
  split; [vm_compute; reflexivity|].
  refine (proj2 (proj2 (getId3TagBody_legacy_version
            (Buffer.from [0x49; 0x44; 0x33; 2; 0; 0x40; 0; 0; 0; 6;
                          0; 0; 0; 2; 7; 8])
            0 Byte.x02 _ _ _ _)));
    vm_compute; (reflexivity || discriminate).
Defined.

(** ** The merge: what a call leaves alone *)

Lemma writeArray_objects (h : Heap) (array : loc) (items : list Item) :
  objects (writeArray h array items) = objects h.
Proof. done. Qed.

Lemma writeArray_dom (h : Heap) (array : loc) (items : list Item) :
  dom (arrays h) ⊆ dom (arrays (writeArray h array items)).
Proof. unfold writeArray. cbn [arrays]. rewrite dom_insert_L. set_solver. Qed.

Lemma newArray_fresh (h : Heap) (items : list Item) :
  (newArray h items).1 ∉ dom (arrays h).
Proof. unfold newArray. cbn [fst]. apply is_fresh. Qed.

Lemma extends_refl (h : Heap) : extends h h.
Proof. by split. Qed.

Lemma extends_trans (h1 h2 h3 : Heap) :
  extends h1 h2 -> extends h2 h3 -> extends h1 h3.
Proof. intros [H1 H2] [H3 H4]. split; [congruence | set_solver]. Qed.

Lemma writeArray_extends (h : Heap) (array : loc) (items : list Item) :
  extends h (writeArray h array items).
Proof. split; [apply writeArray_objects | apply writeArray_dom]. Qed.

Lemma updateFrame_callback_extends (compareKey : string) (index : FrameIndex)
    (currentTag : loc) (tagValue : Item) (h : Heap) :
  extends h (updateFrame_callback compareKey index currentTag tagValue h).
Proof.
  unfold updateFrame_callback, Array_set, Array_push.
  destruct tagValue as [s|record]; [apply writeArray_extends|].
  destruct (FrameIndex_in _ index); [|apply writeArray_extends].
  destruct (FrameIndex_get index _);
    [apply writeArray_extends | apply extends_refl | apply extends_refl].
Qed.

Lemma Array_forEach_extends (array : loc) (callback : Item -> Heap -> Heap)
    (h : Heap) :
  (forall item h, extends h (callback item h)) ->
  extends h (Array_forEach array callback h).
Proof.
  intros Hcallback. unfold Array_forEach.
  generalize (seq 0 (List.length (readArray h array))). intros indices.
  revert h. induction indices as [|i indices IH]; intros h; cbn [foldl];
    [apply extends_refl|].
  eapply extends_trans; [|apply IH].
  destruct (readArray h array !! i); [apply Hcallback | apply extends_refl].
Qed.

Lemma readArray_writeArray (h : Heap) (array array' : loc) (items : list Item) :
  readArray (writeArray h array items) array'
  = if decide (array = array') then items else readArray h array'.
Proof.
  unfold readArray, writeArray. cbn [arrays]. rewrite lookup_insert.
  by case_decide.
Qed.

Lemma writeArray_other (h : Heap) (array array' : loc) (items : list Item) :
  array' <> array ->
  arrays (writeArray h array items) !! array' = arrays h !! array'.
Proof. intros Hne. cbn [writeArray arrays]. by rewrite lookup_insert_ne. Qed.

(** A new array is none of the arrays of the store. *)
Lemma fresh_array_other (h : Heap) (array : loc) :
  is_Some (arrays h !! array) -> array <> fresh (dom (arrays h)).
Proof.
  intros Hin ->. apply (is_fresh (dom (arrays h))). by apply elem_of_dom.
Qed.

(** The callback of the second [forEach] writes to [currentTag] only. *)
Lemma updateFrame_callback_other (compareKey : string) (index : FrameIndex)
    (currentTag : loc) (item : Item) (h : Heap) (array : loc) :
  array <> currentTag ->
  arrays (updateFrame_callback compareKey index currentTag item h) !! array
  = arrays h !! array.
Proof.
  intros Hne. unfold updateFrame_callback, Array_set, Array_push.
  destruct item as [s|record]; [by apply writeArray_other|].
  destruct (FrameIndex_in _ _); [|by apply writeArray_other].
  destruct (FrameIndex_get _ _); [by apply writeArray_other|done..].
Qed.

Lemma Array_forEach_other (array : loc) (callback : Item -> Heap -> Heap)
    (h : Heap) (other : loc) :
  (forall item h, arrays (callback item h) !! other = arrays h !! other) ->
  arrays (Array_forEach array callback h) !! other = arrays h !! other.
Proof.
  intros Hcallback. unfold Array_forEach.
  generalize (seq 0 (List.length (readArray h array))). intros indices.
  revert h. induction indices as [|i indices IH]; intros h; cbn [foldl];
    [done|].
  rewrite IH. by destruct (readArray h array !! i).
Qed.

(** [updateFrameIfMultiple] changes no array of the store but the one
    [currentTag] refers to. *)
Lemma updateFrameIfMultiple_other_arrays (options : FrameOptions)
    (newTag currentTag : Value) (h : Heap) (array : loc) :
  is_Some (arrays h !! array) ->
  currentTag <> VArray array ->
  arrays (updateFrameIfMultiple options newTag currentTag h).2 !! array
  = arrays h !! array.
Proof.
  intros Hin Hne. unfold updateFrameIfMultiple.
  destruct (negb (multiple options) || negb (Value_truthy newTag)
            || negb (Value_truthy currentTag) || negb (Array_isArray currentTag));
    [done|].
  destruct currentTag as [| |currentTag]; [done..|].
  assert (Hcur : array <> currentTag) by congruence.
  assert (Hrest : forall newTagArray h1,
    arrays h1 !! array = arrays h !! array ->
    arrays
      (if negb (compareKey_truthy (updateCompareKey options)) then
         let '(result, h2) :=
           newArray h1 (readArray h1 currentTag ++ readArray h1 newTagArray) in
         (Some (VArray result), h2)
       else
         let compareKey := default ""%string (updateCompareKey options) in
         let index := compareValueToFrameIndex compareKey (readArray h1 currentTag) in
         let h2 := Array_forEach newTagArray
                     (updateFrame_callback compareKey index currentTag) h1 in
         (Some (VArray currentTag), h2)).2 !! array
    = arrays h !! array).
  { intros newTagArray h1 Hsame.
    destruct (negb (compareKey_truthy (updateCompareKey options))); cbn zeta.
    - unfold newArray. cbn [snd]. rewrite writeArray_other; [done|].
      apply fresh_array_other. by rewrite Hsame.
    - cbn [snd]. rewrite Array_forEach_other; [done|].
      intros. by apply updateFrame_callback_other. }
  destruct newTag as [|item|newTagArray]; cbn [newTagArray_of]; [done|..].
  - unfold newArray at 1 2. apply Hrest.
    apply writeArray_other. by apply fresh_array_other.
  - by apply Hrest.
Qed.

(** What [updateFrameIfMultiple] can return: [null], the array of
    [currentTag] itself, or an array that did not exist before the call. *)
Lemma updateFrameIfMultiple_result (options : FrameOptions)
    (newTag currentTag : Value) (h : Heap) :
  let result := (updateFrameIfMultiple options newTag currentTag h).1 in
  let h' := (updateFrameIfMultiple options newTag currentTag h).2 in
  extends h h' /\
  (result = None \/
   (exists array, currentTag = VArray array /\ result = Some (VArray array)) \/
   (exists array new, currentTag = VArray array /\ result = Some (VArray new) /\
                      new ∉ dom (arrays h))).
Proof.
  unfold updateFrameIfMultiple.
  destruct (negb (multiple options) || negb (Value_truthy newTag)
            || negb (Value_truthy currentTag) || negb (Array_isArray currentTag));
    [split; [apply extends_refl | by left]|].
  destruct currentTag as [| |currentTag];
    [split; [apply extends_refl | by left].. |].
  assert (Hnew : forall newTagArray h1, extends h h1 ->
    let r :=
      (if negb (compareKey_truthy (updateCompareKey options)) then
         let '(result, h2) :=
           newArray h1 (readArray h1 currentTag ++ readArray h1 newTagArray) in
         (Some (VArray result), h2)
       else
         let compareKey := default ""%string (updateCompareKey options) in
         let index := compareValueToFrameIndex compareKey (readArray h1 currentTag) in
         let h2 := Array_forEach newTagArray
                     (updateFrame_callback compareKey index currentTag) h1 in
         (Some (VArray currentTag), h2)) in
    extends h r.2 /\
    (r.1 = None \/
     (exists array, VArray currentTag = VArray array /\ r.1 = Some (VArray array)) \/
     (exists array new, VArray currentTag = VArray array /\
                        r.1 = Some (VArray new) /\ new ∉ dom (arrays h)))).
  { intros newTagArray h1 Hext.
    destruct (negb (compareKey_truthy (updateCompareKey options))); cbn zeta.
    - unfold newArray. cbn [fst snd]. split.
      + eapply extends_trans; [exact Hext | apply writeArray_extends].
      + right. right. eexists _, _. split; [done|]. split; [done|].
        intros Hin. destruct Hext as [_ Hdom].
        apply (is_fresh (dom (arrays h1))). set_solver.
    - cbn [fst snd]. split.
      + eapply extends_trans; [exact Hext|].
        apply Array_forEach_extends. intros. apply updateFrame_callback_extends.
      + right. left. by eexists. }
  destruct newTag as [|item|newTagArray]; cbn [newTagArray_of].
  - split; [apply extends_refl | by left].
  - unfold newArray at 1 2. apply Hnew. apply writeArray_extends.
  - apply Hnew. apply extends_refl.
Qed.

(** The test at the head of [updateFrameIfMultiple]. *)
Lemma updateFrameIfMultiple_null (options : FrameOptions)
    (newTag currentTag : Value) (h : Heap) :
  multiple options = false \/ Array_isArray currentTag = false ->
  updateFrameIfMultiple options newTag currentTag h = (None, h).
Proof.
  unfold updateFrameIfMultiple. intros [-> | ->]; cbn [negb orb]; [done|].
  by rewrite !orb_true_r.
Qed.

Lemma RawTags_get_elem (newRawTags : list (string * Value))
    (frameIdentifier : string) (newFrame : Value) :
  NoDup newRawTags.*1 -> (frameIdentifier, newFrame) ∈ newRawTags ->
  RawTags_get newRawTags frameIdentifier = newFrame.
Proof.
  induction newRawTags as [|[key value] rest IH]; intros Hnodup Hin;
    [by apply elem_of_nil in Hin|].
  cbn [fmap list_fmap fst] in Hnodup. apply NoDup_cons in Hnodup as [Hkey Hnodup].
  cbn [RawTags_get]. apply elem_of_cons in Hin as [Heq|Hin].
  - injection Heq as -> ->. by rewrite bool_decide_eq_true_2.
  - rewrite bool_decide_eq_false_2; [by apply IH|].
    intros ->. apply Hkey. apply list_elem_of_fmap. by exists (frameIdentifier, newFrame).
Qed.

Section UpdateSteps.

Variable getSpecOptions : string -> FrameOptions.
Variable newRawTags : list (string * Value).
Variable currentRawTags : loc.

Abbreviation step :=
  (updateTags_callback getSpecOptions newRawTags currentRawTags).

Abbreviation stored := (storedFrame getSpecOptions newRawTags currentRawTags).

Lemma step_unfold (h : Heap) (frameIdentifier : string) :
  step h frameIdentifier
  = setProperty
      (updateFrameIfMultiple (getSpecOptions frameIdentifier)
         (RawTags_get newRawTags frameIdentifier)
         (getProperty h currentRawTags frameIdentifier) h).2
      currentRawTags frameIdentifier (stored h frameIdentifier).
Proof.
  unfold storedFrame, updateTags_callback.
  by destruct (updateFrameIfMultiple _ _ _ h).
Qed.

Lemma step_arrays (h : Heap) (frameIdentifier : string) :
  dom (arrays h) ⊆ dom (arrays (step h frameIdentifier)).
Proof.
  rewrite step_unfold. cbn [setProperty arrays].
  apply updateFrameIfMultiple_result.
Qed.


Lemma step_ownProperty (h : Heap) (frameIdentifier key : string) :
  ownProperty (step h frameIdentifier) currentRawTags key
  = if decide (frameIdentifier = key) then Some (stored h frameIdentifier)
    else ownProperty h currentRawTags key.
Proof.
  rewrite step_unfold. unfold ownProperty. cbn [setProperty objects].
  rewrite lookup_insert_eq. cbn [default from_option id].
  rewrite lookup_insert. case_decide; [done|].
  by destruct (updateFrameIfMultiple_result (getSpecOptions frameIdentifier)
                 (RawTags_get newRawTags frameIdentifier)
                 (getProperty h currentRawTags frameIdentifier) h) as [[-> _] _].
Qed.



(** An identifier that is not among the keys keeps its property. *)
Lemma steps_absent (keys : list string) (h : Heap) (key : string) :
  key ∉ keys ->
  ownProperty (foldl step h keys) currentRawTags key
  = ownProperty h currentRawTags key.
Proof.
  revert h. induction keys as [|k keys IH]; intros h Hnot; cbn [foldl]; [done|].
  apply not_elem_of_cons in Hnot as [Hne Hnot].
  rewrite IH by done. rewrite step_ownProperty. by rewrite decide_False.
Qed.

(** An identifier among the keys holds what its one step stored, and that
    step saw the property as it was at the start. *)
Lemma steps_present (keys : list string) (h : Heap) (key : string) :
  NoDup keys -> key ∈ keys ->
  exists h1,
    dom (arrays h) ⊆ dom (arrays h1) /\
    ownProperty h1 currentRawTags key = ownProperty h currentRawTags key /\
    ownProperty (foldl step h keys) currentRawTags key = Some (stored h1 key).
Proof.
  revert h. induction keys as [|k keys IH]; intros h Hnodup Hin;
    [by apply elem_of_nil in Hin|].
  apply NoDup_cons in Hnodup as [Hk Hnodup]. cbn [foldl].
  destruct (decide (k = key)) as [->|Hne].
  - exists h. split; [done|]. split; [done|].
    rewrite steps_absent by done. rewrite step_ownProperty.
    by rewrite decide_True.
  - apply elem_of_cons in Hin as [->|Hin]; [done|].
    destruct (IH (step h k) Hnodup Hin) as (h1 & Hdom & Hown & Hfinal).
    exists h1. split; [etrans; [apply step_arrays | exact Hdom]|].
    split; [|exact Hfinal].
    rewrite Hown, step_ownProperty. by rewrite decide_False.
Qed.

Lemma step_other_array (h : Heap) (frameIdentifier : string) (array : loc) :
  is_Some (arrays h !! array) ->
  ownProperty h currentRawTags frameIdentifier <> Some (VArray array) ->
  arrays (step h frameIdentifier) !! array = arrays h !! array.
Proof.
  intros Hin Hne. rewrite step_unfold. cbn [setProperty arrays].
  apply updateFrameIfMultiple_other_arrays; [done|].
  unfold getProperty. intros Heq. apply Hne.
  destruct (ownProperty h currentRawTags frameIdentifier);
    cbn [default from_option id] in Heq; by subst.
Qed.

(** An array that no identifier among the keys holds keeps its elements. *)
Lemma steps_other_array (keys : list string) (h : Heap) (array : loc) :
  NoDup keys ->
  is_Some (arrays h !! array) ->
  (forall key, key ∈ keys ->
               ownProperty h currentRawTags key <> Some (VArray array)) ->
  arrays (foldl step h keys) !! array = arrays h !! array.
Proof.
  revert h. induction keys as [|k keys IH]; intros h Hnodup Hin Hne;
    cbn [foldl]; [done|].
  apply NoDup_cons in Hnodup as [Hk Hnodup].
  assert (Hstep : arrays (step h k) !! array = arrays h !! array)
    by (apply step_other_array; [done | apply Hne; by left]).
  rewrite IH; [done | done | by rewrite Hstep |].
  intros key Hkey. rewrite step_ownProperty, decide_False by (by intros ->).
  apply Hne. by right.
Qed.

End UpdateSteps.

(** ** The merge *)

Section UpdateTags.

Context {WriteTags : Type}.
Variable convertWriteTagsToRawTags : WriteTags -> list (string * Value).
Variable getSpecOptions : string -> FrameOptions.

(** [updateTags], with the object it works on made explicit. *)
Lemma updateTags_unfold (newTags : WriteTags) (currentTags : Tags) (h : Heap) :
  let newRawTags := convertWriteTagsToRawTags newTags in
  let start := match raw currentTags with
               | Some object => (object, h)
               | None => newObject h
               end in
  updateTags convertWriteTagsToRawTags getSpecOptions newTags currentTags h
  = (start.1,
     foldl (updateTags_callback getSpecOptions newRawTags start.1) start.2
       newRawTags.*1) /\
  (forall key, ownProperty start.2 start.1 key = ownProperty h start.1 key) /\
  (forall object, object <> start.1 ->
                  objects start.2 !! object = objects h !! object) /\
  arrays start.2 = arrays h.
Proof.
  intros newRawTags start. unfold updateTags. fold newRawTags.
  subst start. destruct (raw currentTags) as [object|]; [done|].
  unfold newObject. cbn [fst snd]. split; [done|]. split; [|split; [|done]].
  - intros key. unfold ownProperty. cbn [objects]. rewrite lookup_insert_eq.
    pose proof (is_fresh (dom (objects h))) as Hfresh.
    apply not_elem_of_dom in Hfresh. by rewrite Hfresh.
  - intros object Hne. cbn [objects]. by rewrite lookup_insert_ne.
Qed.

(** C6. A new raw entry replaces the existing value when its frame is not
    multi-valued, when there is no existing value under its identifier, or
    when the existing value is not an array: the resulting mapping holds the
    new value under the identifier. *)
Theorem updateTags_replaces (newTags : WriteTags) (currentTags : Tags)
    (h : Heap) (frameIdentifier : string) (newFrame : Value) :
  let newRawTags := convertWriteTagsToRawTags newTags in
  let merged :=
    updateTags convertWriteTagsToRawTags getSpecOptions newTags currentTags h in
  NoDup newRawTags.*1 ->
  (frameIdentifier, newFrame) ∈ newRawTags ->
  multiple (getSpecOptions frameIdentifier) = false \/
  ownProperty h merged.1 frameIdentifier = None \/
  (exists existing, ownProperty h merged.1 frameIdentifier = Some existing /\
                    Array_isArray existing = false) ->
  ownProperty merged.2 merged.1 frameIdentifier = Some newFrame.
Proof.
  intros newRawTags merged Hnodup Hentry Hcase.
  destruct (updateTags_unfold newTags currentTags h) as (Heq & Hstart & _).
  fold newRawTags in Heq. subst merged. rewrite Heq in *. cbn [fst snd] in *.
  set (start := match raw currentTags with
                | Some object => (object, h)
                | None => newObject h
                end) in *.
  assert (Hin : frameIdentifier ∈ newRawTags.*1)
    by (apply list_elem_of_fmap; by exists (frameIdentifier, newFrame)).
  destruct (steps_present getSpecOptions newRawTags start.1 _ start.2
              frameIdentifier Hnodup Hin) as (h1 & _ & Hown & ->).
  f_equal. unfold storedFrame.
  rewrite (RawTags_get_elem _ _ _ Hnodup Hentry).
  rewrite updateFrameIfMultiple_null; [done|].
  unfold getProperty. rewrite Hown, Hstart.
  destruct Hcase as [Hsingle|[-> |(existing & -> & Hnoarray)]]; auto.
Qed.

End UpdateTags.

Lemma updateTags_replaces_witness :
  let newTags := [("TIT2"%string, VItem (IString "new"))] in
  let merged := updateTags exampleConvert exampleOptions newTags exampleTags
                  exampleHeap in
  NoDup newTags.*1 /\
  multiple (exampleOptions "TIT2") = false /\
  ownProperty merged.2 merged.1 "TIT2" = Some (VItem (IString "new")).
Proof.
  split; [apply NoDup_singleton|]. split; [reflexivity|].
  apply (updateTags_replaces exampleConvert exampleOptions
           [("TIT2"%string, VItem (IString "new"))] exampleTags exampleHeap
           "TIT2" (VItem (IString "new"))).
  - apply NoDup_singleton.
  - apply list_elem_of_here.
  - left. reflexivity.
Defined.

(** ** Merging by comparison key *)

(** The examples of the spec (8): a record whose description an existing
    record has replaces it where it stands; one with a new description is
    appended. *)
Example updateFrameIfMultiple_replaces_in_place :
  let currentTag := [userDefinedText "abc" "deg"; userDefinedText "xyz" "1"] in
  let h := {| arrays := {[ 1%positive := currentTag ]}; objects := ∅ |} in
  let merged :=
    updateFrameIfMultiple (exampleOptions "TXXX")
      (VItem (userDefinedText "abc" "new")) (VArray 1%positive) h in
  merged.1 = Some (VArray 1%positive) /\
  readArray merged.2 1%positive
  = [userDefinedText "abc" "new"; userDefinedText "xyz" "1"].
Proof. split; reflexivity. Qed.

Example updateFrameIfMultiple_appends_new_key :
  let currentTag := [userDefinedText "abc" "deg"; userDefinedText "xyz" "1"] in
  let h := {| arrays := {[ 1%positive := currentTag ]}; objects := ∅ |} in
  let merged :=
    updateFrameIfMultiple (exampleOptions "TXXX")
      (VItem (userDefinedText "other" "new")) (VArray 1%positive) h in
  merged.1 = Some (VArray 1%positive) /\
  readArray merged.2 1%positive
  = [userDefinedText "abc" "deg"; userDefinedText "xyz" "1";
     userDefinedText "other" "new"].
Proof. split; reflexivity. Qed.

(** C1, at a record whose comparison-key value names a member of
    [Object.prototype]. No existing record has the description "toString",
    so the merge of the spec appends the new record. In the code
    ["toString" in compareValueToFrameIndex] holds all the same, by
    inheritance; the index read is the inherited function, and the
    assignment [currentTag[frameIndex]] sets a property of that name: the
    record is neither written over an element nor appended. *)
Theorem updateFrameIfMultiple_inherited_key_dropped :
  let existing := [userDefinedText "abc" "deg"] in
  let new := [userDefinedText "toString" "x"] in
  let h := {| arrays := {[ 1%positive := existing; 2%positive := new ]};
              objects := ∅ |} in
  let merged :=
    updateFrameIfMultiple (exampleOptions "TXXX") (VArray 2%positive)
      (VArray 1%positive) h in
  lastPositionFrom "description" 0 existing "toString" = None /\
  specMerge "description" existing new = existing ++ new /\
  FrameIndex_in "toString" (compareValueToFrameIndex "description" existing)
  = true /\
  merged.1 = Some (VArray 1%positive) /\
  readArray merged.2 1%positive = existing.
Proof. repeat split; reflexivity. Qed.

(** The index the code builds holds, for every key but [__proto__], the
    position of the last record with that comparison value. *)
Lemma compareValueToFrameIndex_from (compareKey : string) (existing : list Item)
    (first : nat) (object : FrameIndex) (key : string) :
  key <> "__proto__"%string ->
  foldl (fun object '(index, tag) =>
           match tag with
           | IObject record =>
               FrameIndex_set object
                 (ToPropertyKey (Record_get record compareKey)) index
           | IString _ => object
           end)
        object (imap (fun i tag => ((first + i)%nat, tag)) existing) !! key
  = match lastPositionFrom compareKey first existing key with
    | Some position => Some position
    | None => object !! key
    end.
Proof.
  intros Hkey. revert first object.
  induction existing as [|item existing IH]; intros first object; [done|].
  cbn [imap foldl lastPositionFrom].
  rewrite (imap_ext _ (fun i tag => ((S first + i)%nat, tag)))
    by (intros; cbn; f_equal; lia).
  rewrite IH. destruct (lastPositionFrom compareKey (S first) existing key);
    [done|].
  rewrite Nat.add_0_r. destruct item as [s|record]; cbn [compareValue].
  - by rewrite bool_decide_eq_false_2.
  - unfold FrameIndex_set.
    destruct (decide (ToPropertyKey (Record_get record compareKey) = key))
      as [->|Hne].
    + rewrite bool_decide_eq_false_2 by done.
      rewrite bool_decide_eq_true_2 by done. by rewrite lookup_insert_eq.
    + rewrite (bool_decide_eq_false_2 (Some _ = Some key)) by congruence.
      case_bool_decide; [done|]. by rewrite lookup_insert_ne.
Qed.

Lemma compareValueToFrameIndex_lookup (compareKey : string)
    (existing : list Item) (key : string) :
  key <> "__proto__"%string ->
  compareValueToFrameIndex compareKey existing !! key
  = lastPositionFrom compareKey 0 existing key.
Proof.
  intros Hkey. unfold compareValueToFrameIndex.
  rewrite (imap_ext pair (fun i tag => ((0 + i)%nat, tag))) by done.
  rewrite compareValueToFrameIndex_from by done.
  by destruct (lastPositionFrom compareKey 0 existing key).
Qed.

Lemma lastPositionFrom_None (compareKey : string) (existing : list Item)
    (first : nat) (value : string) :
  lastPositionFrom compareKey first existing value = None ->
  forall i item, existing !! i = Some item ->
                 compareValue compareKey item <> Some value.
Proof.
  revert first. induction existing as [|x existing IH]; intros first Hnone i item;
    [done|].
  cbn [lastPositionFrom] in Hnone.
  destruct (lastPositionFrom compareKey (S first) existing value) eqn:Hrest;
    [done|].
  case_bool_decide as Hx; [done|].
  destruct i as [|i]; cbn [lookup list_lookup].
  - by intros [= <-].
  - by apply (IH (S first)).
Qed.

(** What the index of the spec points at: the last record with the value. *)
Lemma lastPositionFrom_Some (compareKey : string) (existing : list Item)
    (first position : nat) (value : string) :
  lastPositionFrom compareKey first existing value = Some position ->
  exists item,
    (first <= position)%nat /\
    existing !! (position - first)%nat = Some item /\
    compareValue compareKey item = Some value /\
    forall later item', (position - first < later)%nat ->
                        existing !! later = Some item' ->
                        compareValue compareKey item' <> Some value.
Proof.
  revert first. induction existing as [|item existing IH]; intros first; [done|].
  cbn [lastPositionFrom].
  destruct (lastPositionFrom compareKey (S first) existing value) as [p|] eqn:Hp.
  - intros [= <-]. destruct (IH _ Hp) as (found & Hle & Hfound & Hvalue & Hlast).
    exists found. split; [lia|].
    replace (p - first)%nat with (S (p - S first)) by lia.
    split; [done|]. split; [done|].
    intros [|later] item' Hlater Hitem'; [lia|].
    apply (Hlast later item'); [lia | done].
  - case_bool_decide as Hvalue; [|done]. intros [= <-].
    exists item. rewrite Nat.sub_diag. split; [done|]. split; [done|].
    split; [done|]. intros [|later] item' Hlater Hitem'; [lia|].
    by apply (lastPositionFrom_None _ _ _ _ Hp later item').
Qed.

(** [forEach] over an array the callback does not change visits the
    elements it had at the start. *)
Lemma Array_forEach_fold (array : loc) (callback : Item -> Heap -> Heap)
    (h : Heap) :
  (forall item h, readArray (callback item h) array = readArray h array) ->
  Array_forEach array callback h
  = foldl (fun h item => callback item h) h (readArray h array).
Proof.
  intros Hkeeps. unfold Array_forEach.
  assert (Hloop : forall rest visited h,
    readArray h array = visited ++ rest ->
    foldl (fun h index =>
             match readArray h array !! index with
             | Some item => callback item h
             | None => h
             end)
          h (seq (List.length visited) (List.length rest))
    = foldl (fun h item => callback item h) h rest).
  { induction rest as [|item rest IH]; intros visited h' Hread; [done|].
    cbn [List.length seq foldl].
    rewrite Hread, list_lookup_middle by done.
    replace (S (List.length visited)) with (List.length (visited ++ [item]))
      by (rewrite length_app; cbn; lia).
    apply IH. rewrite Hkeeps, Hread. by rewrite <- app_assoc. }
  apply (Hloop (readArray h array) [] h). done.
Qed.

Section MergeByKey.

Variable compareKey : string.
Variable currentTag : loc.
Variable existing : list Item.

Abbreviation callback :=
  (updateFrame_callback compareKey
     (compareValueToFrameIndex compareKey existing) currentTag).

(** One new record, when its comparison value is no inherited name: the
    callback does to the array what the spec says. *)
Lemma callback_currentTag (item : Item) (h : Heap) :
  (forall value, compareValue compareKey item = Some value ->
                 value ∉ Object_prototype) ->
  readArray (callback item h) currentTag
  = specMergeRecord compareKey existing (readArray h currentTag) item.
Proof.
  intros Hown. unfold updateFrame_callback, specMergeRecord,
    Array_set, Array_push.
  destruct item as [s|record]; cbn [compareValue] in *;
    [by rewrite readArray_writeArray, decide_True|].
  set (value := ToPropertyKey (Record_get record compareKey)) in *.
  specialize (Hown value eq_refl).
  assert (Hproto : value <> "__proto__"%string).
  { intros Heq. apply Hown. rewrite Heq. unfold Object_prototype. set_solver. }
  unfold FrameIndex_in, FrameIndex_get.
  rewrite compareValueToFrameIndex_lookup by done.
  rewrite (bool_decide_eq_false_2 (value ∈ Object_prototype)) by done.
  rewrite orb_false_r.
  destruct (lastPositionFrom compareKey 0 existing value) as [position|].
  - rewrite bool_decide_eq_true_2 by eauto.
    by rewrite readArray_writeArray, decide_True.
  - rewrite bool_decide_eq_false_2 by (by intros [? ?]).
    by rewrite readArray_writeArray, decide_True.
Qed.

Lemma callbacks_currentTag (items : list Item) (h : Heap) :
  (forall item value, item ∈ items ->
                      compareValue compareKey item = Some value ->
                      value ∉ Object_prototype) ->
  readArray (foldl (fun h item => callback item h) h items) currentTag
  = foldl (specMergeRecord compareKey existing) (readArray h currentTag) items.
Proof.
  revert h. induction items as [|item items IH]; intros h Hown; cbn [foldl];
    [done|].
  rewrite IH by (intros; eapply Hown; [by right | done]).
  rewrite callback_currentTag; [done|].
  intros value. apply Hown. by left.
Qed.

End MergeByKey.

(** [newTag instanceof Array ? newTag : [newTag]] for a truthy [newTag] and
    an existing [currentTag] array: an array that is not [currentTag], holds
    the new elements, in a store that has [currentTag] as it was. *)
Lemma newTagArray_of_spec (newTag : Value) (currentTag : loc) (h : Heap) :
  Value_truthy newTag = true ->
  is_Some (arrays h !! currentTag) ->
  newTag <> VArray currentTag ->
  exists newTagArray h1,
    newTagArray_of newTag h = Some (newTagArray, h1) /\
    newTagArray <> currentTag /\
    readArray h1 newTagArray = newItems h newTag /\
    readArray h1 currentTag = readArray h currentTag /\
    (forall array, is_Some (arrays h !! array) ->
                   arrays h1 !! array = arrays h !! array).
Proof.
  intros Htruthy Hexists Hne. destruct newTag as [|item|array]; [done|..].
  - assert (Hfresh : forall array, is_Some (arrays h !! array) ->
                                   array <> fresh (dom (arrays h))).
    { intros array Hin ->. apply (is_fresh (dom (arrays h))).
      by apply elem_of_dom. }
    eexists _, _. split; [done|]. cbn [newItems]. split; [|split; [|split]].
    + intros Heq. by apply (Hfresh currentTag).
    + by rewrite readArray_writeArray, decide_True.
    + rewrite readArray_writeArray, decide_False; [done|].
      intros Heq. by apply (Hfresh currentTag).
    + intros array Hin. cbn [writeArray arrays].
      rewrite lookup_insert_ne; [done|]. intros Heq. by apply (Hfresh array).
  - exists array, h. split; [done|]. split; [congruence|]. done.
Qed.

(** The merge without a comparison key, with the new array it allocates. *)
Lemma updateFrameIfMultiple_without_key (options : FrameOptions)
    (newTag : Value) (currentTag : loc) (h : Heap) :
  multiple options = true ->
  compareKey_truthy (updateCompareKey options) = false ->
  Value_truthy newTag = true ->
  is_Some (arrays h !! currentTag) ->
  let merged := updateFrameIfMultiple options newTag (VArray currentTag) h in
  exists result,
    merged.1 = Some (VArray result) /\
    arrays h !! result = None /\
    is_Some (arrays merged.2 !! result) /\
    readArray merged.2 result = readArray h currentTag ++ newItems h newTag /\
    (forall array, is_Some (arrays h !! array) ->
                   arrays merged.2 !! array = arrays h !! array).
Proof.
  intros Hmultiple Hnokey Htruthy Hexists merged. subst merged.
  unfold updateFrameIfMultiple.
  rewrite Hmultiple, Htruthy, Hnokey. cbn [negb orb Value_truthy Array_isArray].
  assert (Happend : forall newTagArray h1,
    readArray h1 newTagArray = newItems h newTag ->
    readArray h1 currentTag = readArray h currentTag ->
    (forall array, is_Some (arrays h !! array) ->
                   arrays h1 !! array = arrays h !! array) ->
    dom (arrays h) ⊆ dom (arrays h1) ->
    let merged :=
      (let '(result, h2) :=
         newArray h1 (readArray h1 currentTag ++ readArray h1 newTagArray) in
       (Some (VArray result), h2)) in
    exists result,
      merged.1 = Some (VArray result) /\
      arrays h !! result = None /\
      is_Some (arrays merged.2 !! result) /\
      readArray merged.2 result = readArray h currentTag ++ newItems h newTag /\
      (forall array, is_Some (arrays h !! array) ->
                     arrays merged.2 !! array = arrays h !! array)).
  { intros newTagArray h1 Hnew Hcur Hsame Hdom. unfold newArray. cbn [fst snd].
    pose proof (is_fresh (dom (arrays h1))) as Hfresh.
    eexists. split; [done|]. split; [|split; [|split]].
    - apply not_elem_of_dom. set_solver.
    - cbn [writeArray arrays]. rewrite lookup_insert_eq. by eexists.
    - by rewrite readArray_writeArray, decide_True, Hnew, Hcur.
    - intros array Hin. cbn [writeArray arrays].
      rewrite lookup_insert_ne; [by apply Hsame|].
      intros <-. apply Hfresh, Hdom. by apply elem_of_dom. }
  destruct newTag as [|item|array]; [done|..]; cbn [newTagArray_of].
  - unfold newArray at 1 2. apply Happend.
    + by rewrite readArray_writeArray, decide_True.
    + rewrite readArray_writeArray, decide_False; [done|].
      intros Heq. apply (is_fresh (dom (arrays h))). rewrite Heq.
      by apply elem_of_dom.
    + intros array Hin. cbn [writeArray arrays].
      rewrite lookup_insert_ne; [done|].
      intros Heq. apply (is_fresh (dom (arrays h))). rewrite Heq.
      by apply elem_of_dom.
    + apply writeArray_dom.
  - by apply Happend.
Qed.

(** X19. The merge without a comparison key: the result is a new array,
    the existing elements followed by all the new ones; no array of the
    store changes. *)
Theorem updateFrameIfMultiple_appends_without_key (options : FrameOptions)
    (newTag : Value) (currentTag : loc) (h : Heap) :
  multiple options = true ->
  compareKey_truthy (updateCompareKey options) = false ->
  Value_truthy newTag = true ->
  is_Some (arrays h !! currentTag) ->
  let merged := updateFrameIfMultiple options newTag (VArray currentTag) h in
  exists result,
    merged.1 = Some (VArray result) /\
    arrays h !! result = None /\
    readArray merged.2 result = readArray h currentTag ++ newItems h newTag /\
    (forall array, is_Some (arrays h !! array) ->
                   arrays merged.2 !! array = arrays h !! array).
Proof.
  intros Hmultiple Hnokey Htruthy Hexists merged.
  destruct (updateFrameIfMultiple_without_key options newTag currentTag h
              Hmultiple Hnokey Htruthy Hexists)
    as (result & Hresult & Hnew & _ & Hitems & Hsame).
  by exists result.
Qed.

(** The merge with a comparison key, for new records whose comparison
    values are no names inherited from [Object.prototype] and a new array
    that is not the existing one: the existing array itself is returned,
    holding the merge of the spec; no other array of the store changes. *)
Theorem updateFrameIfMultiple_refines_specMerge (options : FrameOptions)
    (compareKey : string) (newTag : Value) (currentTag : loc) (h : Heap) :
  multiple options = true ->
  updateCompareKey options = Some compareKey ->
  compareKey <> ""%string ->
  Value_truthy newTag = true ->
  is_Some (arrays h !! currentTag) ->
  newTag <> VArray currentTag ->
  (forall item value, item ∈ newItems h newTag ->
                      compareValue compareKey item = Some value ->
                      value ∉ Object_prototype) ->
  let merged := updateFrameIfMultiple options newTag (VArray currentTag) h in
  merged.1 = Some (VArray currentTag) /\
  readArray merged.2 currentTag
  = specMerge compareKey (readArray h currentTag) (newItems h newTag) /\
  (forall array, array <> currentTag -> is_Some (arrays h !! array) ->
                 arrays merged.2 !! array = arrays h !! array).
Proof.
  intros Hmultiple Hkey Hnonempty Htruthy Hexists Hne Hown merged. subst merged.
  unfold updateFrameIfMultiple.
  rewrite Hmultiple, Htruthy, Hkey.
  cbn [negb orb Value_truthy Array_isArray compareKey_truthy].
  rewrite bool_decide_eq_false_2 by done. cbn [negb default from_option id].
  destruct (newTagArray_of_spec newTag currentTag h Htruthy Hexists Hne)
    as (newTagArray & h1 & -> & Hdistinct & Hnew & Hcur & Hsame).
  cbn [fst snd]. split; [done|]. split.
  - rewrite Array_forEach_fold
      by (intros item h'; unfold readArray;
          by rewrite updateFrame_callback_other).
    rewrite Hnew, callbacks_currentTag by done. by rewrite Hcur.
  - intros array Harray Hin.
    rewrite Array_forEach_other
      by (intros; by apply updateFrame_callback_other).
    by apply Hsame.
Qed.

(** ** The merge through [updateTags]: what the slots hold afterwards *)

Section UpdateContents.

Variable getSpecOptions : string -> FrameOptions.
Variable newRawTags : list (string * Value).
Variable currentRawTags : loc.

Abbreviation run :=
  (foldl (updateTags_callback getSpecOptions newRawTags currentRawTags)).



End UpdateContents.

Section UpdateTagsInPlace.

Context {WriteTags : Type}.
Variable convertWriteTagsToRawTags : WriteTags -> list (string * Value).
Variable getSpecOptions : string -> FrameOptions.


End UpdateTagsInPlace.


(** * Further properties of the tag module *)

(** ** The validity check on any buffer *)

(** X1. [isValidEncodedSize] looks at the first four bytes only and reads a
    missing byte as 0: it is true exactly when every byte among the first
    four that the buffer has keeps bit 7 clear. The empty buffer passes. *)
Theorem isValidEncodedSize_any_length (encodedSize : Buffer.t) :
  isValidEncodedSize encodedSize = true <->
  forall (i : nat) (b : byte),
    (i < 4)%nat -> encodedSize !! i = Some b ->
    Z.testbit (byte_to_Z b) 7 = false.
Proof.
  unfold isValidEncodedSize. rewrite bool_decide_eq_true, land_128_testbit.
  change (Buffer.get encodedSize 0) with (Buffer.get encodedSize (Z.of_nat 0)).
  change (Buffer.get encodedSize 1) with (Buffer.get encodedSize (Z.of_nat 1)).
  change (Buffer.get encodedSize 2) with (Buffer.get encodedSize (Z.of_nat 2)).
  change (Buffer.get encodedSize 3) with (Buffer.get encodedSize (Z.of_nat 3)).
  rewrite !Buffer_get_nat, !Z.lor_spec, !orb_false_iff.
  assert (Hbit : forall i : nat,
            Z.testbit (toInt32 (byte_to_Z <$> encodedSize !! i)) 7 = false <->
            forall b, encodedSize !! i = Some b ->
                      Z.testbit (byte_to_Z b) 7 = false).
  { intros i. destruct (encodedSize !! i) as [b|]; cbn.
    - split; [by intros H b' [= <-] | auto].
    - split; [done | done]. }
  rewrite !Hbit. split.
  - intros (((H0 & H1) & H2) & H3) i b Hi.
    destruct i as [|[|[|[|i]]]]; [auto.. | lia].
  - intros H. repeat split; intros b Hb; eapply H; [| exact Hb | | exact Hb
      | | exact Hb | | exact Hb]; lia.
Qed.

(** ** The locator *)

(** X2. The locator always returns: [-1], or an offset at which the buffer
    holds at least the ten bytes of a header. *)
Theorem findId3TagPosition_in_range (buffer : Buffer.t) :
  exists position,
    findId3TagPosition buffer = Return position /\
    (position = -1 \/
     0 <= position /\ position + Header.size <= Buffer.length buffer).
Proof.
  destruct (findId3TagPosition_spec buffer) as [[Hr _]|(p & Hr & Hv & _)].
  - exists (-1). by split; [|left].
  - exists (Z.of_nat p). split; [done|]. right.
    destruct (located_encodedSize _ _ Hv) as (_ & _ & Hlen).
    unfold Header.size, Buffer.length. lia.
Qed.

(** ** Strip *)

(** What strip returns at a located tag. *)
Lemma removeId3Tag_located_eq (data : Buffer.t) (p : nat) :
  findId3TagPosition data = Return (Z.of_nat p) ->
  removeId3Tag data
  = Return (IsBuffer
              (take p data
               ++ drop (p + 10 + Z.to_nat (decodeSize (take 4 (drop (p + 6) data))))
                    data)).
Proof.
  intros Hp. pose proof (findId3TagPosition_located _ _ Hp) as Hv.
  destruct (located_encodedSize _ _ Hv) as (Hsub & Hvalid & Hlen).
  unfold removeId3Tag. rewrite Hp. cbn [mbind Outcome_bind].
  rewrite bool_decide_eq_false_2 by lia.
  rewrite Hsub, Hvalid. cbn [negb].
  rewrite bool_decide_eq_true_2 by (unfold Buffer.length, Header.size; lia).
  unfold Buffer.concat. cbn [mjoin list_join]. rewrite app_nil_r.
  pose proof (decodeSize_nonneg (take 4 (drop (p + 6) data))) as Hnn.
  replace (Z.of_nat p + decodeSize (take 4 (drop (p + 6) data)) + Header.size)
    with (Z.of_nat (p + 10 + Z.to_nat (decodeSize (take 4 (drop (p + 6) data)))))
    by (unfold Header.size; lia).
  rewrite Buffer_subarrayFrom_drop.
  change 0 with (Z.of_nat 0). rewrite Buffer_subarray_take_drop by lia.
  by rewrite drop_0, Nat.sub_0_r.
Qed.

(** X3. [removeId3Tag] never throws and never returns [false]: it returns
    the input itself, or a buffer at least ten bytes shorter that starts
    with the bytes before the tag. *)
Theorem removeId3Tag_returns_buffer (data : Buffer.t) :
  exists result,
    removeId3Tag data = Return (IsBuffer result) /\
    (result = data \/
     exists p, findId3TagPosition data = Return (Z.of_nat p) /\
               take p result = take p data /\
               (List.length result + 10 <= List.length data)%nat).
Proof.
  destruct (findId3TagPosition_cases data) as [Hnone|[p Hp]].
  - exists data. split; [|by left]. unfold removeId3Tag. by rewrite Hnone.
  - eexists. split; [by apply removeId3Tag_located_eq|]. right. exists p.
    split; [done|].
    pose proof (findId3TagPosition_located _ _ Hp) as Hv.
    destruct (located_encodedSize _ _ Hv) as (_ & _ & Hlen).
    split.
    + rewrite take_app_le by (rewrite length_take; lia).
      rewrite take_take. f_equal. lia.
    + rewrite length_app, length_take, length_drop. lia.
Qed.

(** ** The body of a tag without extended header *)

Lemma getId3TagBody_plain (buffer : Buffer.t) (p : nat) (major flags : byte) :
  findId3TagPosition buffer = Return (Z.of_nat p) ->
  buffer !! (p + 3)%nat = Some major ->
  buffer !! (p + 5)%nat = Some flags ->
  Z.testbit (byte_to_Z flags) 6 = false \/
  (byte_to_Z major <> 3 /\ byte_to_Z major <> 4) ->
  getId3TagBody buffer
  = Return (Some {| version := Some (byte_to_Z major);
                    buffer := bodyAfter buffer p 10 |}).
Proof.
  intros Hp Hmajor Hflags Hclear.
  destruct (getId3TagBody_located _ _ Hp)
    as (major' & revision & flags' & s0 & s1 & s2 & s3 & rest & Hl).
  cbn zeta in Hl.
  destruct Hl as (Hdata & Hmajor' & Hflags' & Hin & Hnn & Hlen & ->).
  rewrite Hmajor in Hmajor'. injection Hmajor' as <-.
  rewrite Hflags in Hflags'. injection Hflags' as <-.
  destruct (parseTagHeaderFlags_header "I" "D" "3" major revision flags s0 s1 s2 s3)
    as (Hv3 & Hv4 & Hother).
  cbn zeta in Hv3, Hv4, Hother.
  assert (Hfalse : truthy (extendedHeader
                     (parseTagHeaderFlags
                        ["I"%byte; "D"%byte; "3"%byte; major; revision; flags;
                         s0; s1; s2; s3])) = false).
  { destruct Hclear as [Hbit|[H3 H4]]; [|by rewrite (Hother H3 H4)].
    destruct (decide (byte_to_Z major = 3)) as [H3|H3];
      [by rewrite (Hv3 H3), Hbit|].
    destruct (decide (byte_to_Z major = 4)) as [H4|H4];
      [by rewrite (Hv4 H4), Hbit|].
    by rewrite (Hother H3 H4). }
  rewrite Hfalse. cbn [mbind Outcome_bind mret Outcome_ret].
  change (10 + 0) with (Z.of_nat 10).
  rewrite alloc_copy.
  - unfold bodyAfter.
    by replace (Z.to_nat (10 + decodeSize (take 4 (drop (p + 6) buffer))))
      with (10 + Z.to_nat (decodeSize (take 4 (drop (p + 6) buffer))))%nat by lia.
  - rewrite Hdata, length_app. cbn [List.length]. lia.
  - exact Hlen.
Qed.

(** The body after the ten-byte header: the declared number of bytes, taken
    from the buffer as far as it goes and filled up with zero bytes. *)
Lemma bodyAfter_header (buffer : Buffer.t) (p : nat) :
  (p + 10 <= List.length buffer)%nat ->
  let size := Z.to_nat (decodeSize (take 4 (drop (p + 6) buffer))) in
  bodyAfter buffer p 10
  = take size (drop (p + 10) buffer)
    ++ replicate (size - (List.length buffer - (p + 10))) Byte.x00.
Proof.
  intros Hlen size. unfold bodyAfter, tagDataAt. fold size.
  rewrite length_take, length_drop.
  rewrite <- (drop_drop buffer 10 p), skipn_firstn_comm.
  replace (10 + size - 10)%nat with size by lia.
  do 2 f_equal. lia.
Qed.

(** X4. A tag that declares more bytes than the buffer holds is read all
    the same: with the extended-header flag clear, the body
    [getId3TagBody] returns has exactly the declared size, the bytes the
    buffer has after the header followed by zero bytes. *)
Theorem getId3TagBody_pads_short_body (buffer : Buffer.t) (p : nat)
    (major flags : byte) :
  findId3TagPosition buffer = Return (Z.of_nat p) ->
  buffer !! (p + 3)%nat = Some major ->
  buffer !! (p + 5)%nat = Some flags ->
  Z.testbit (byte_to_Z flags) 6 = false ->
  let size := Z.to_nat (decodeSize (take 4 (drop (p + 6) buffer))) in
  let body := take size (drop (p + 10) buffer)
              ++ replicate (size - (List.length buffer - (p + 10))) Byte.x00 in
  getId3TagBody buffer
  = Return (Some {| version := Some (byte_to_Z major); buffer := body |}) /\
  List.length body = size.
Proof.
  intros Hp Hmajor Hflags Hbit size body.
  pose proof (findId3TagPosition_located _ _ Hp) as Hv.
  destruct (located_encodedSize _ _ Hv) as (_ & _ & Hlen).
  split.
  - rewrite (getId3TagBody_plain buffer p major flags) by auto.
    by rewrite bodyAfter_header.
  - subst body. rewrite length_app, length_take, length_drop, length_replicate.
    lia.
Qed.

Lemma getId3TagBody_pads_short_body_witness :
  let buffer := Buffer.from [0x49; 0x44; 0x33; 3; 0; 0; 0; 0; 0; 4; 7; 8] in
  findId3TagPosition buffer = Return 0 /\
  getId3TagBody buffer
  = Return (Some {| version := Some 3; buffer := Buffer.from [7; 8; 0; 0] |}).
Proof.
  split; [vm_compute; reflexivity|].
  refine (proj1 (getId3TagBody_pads_short_body
                   (Buffer.from [0x49; 0x44; 0x33; 3; 0; 0; 0; 0; 0; 4; 7; 8])
                   0 Byte.x03 Byte.x00 _ _ _ _));
    vm_compute; reflexivity.
Defined.


Lemma getId3TagBody_extended_header_overrun_witness :
  let buffer := Buffer.from [0x49; 0x44; 0x33; 3; 0; 0x40; 0; 0; 0; 2; 0; 0] in
  findId3TagPosition buffer = Return 0 /\
  exists e, getId3TagBody buffer = Throws e.
Proof.
  split; [vm_compute; reflexivity|].
  refine (getId3TagBody_extended_header_overrun
            (Buffer.from [0x49; 0x44; 0x33; 3; 0; 0x40; 0; 0; 0; 2; 0; 0])
            0 Byte.x03 Byte.x40 _ _ _ _ _); try (vm_compute; reflexivity).
  left. split; [reflexivity | vm_compute; reflexivity].
Defined.

(** ** Embedded tags: what embed writes, the locator, strip and the body
    reader take back *)

Lemma embedFramesInId3Tag_tagOf (frames : Buffer.t) :
  embedFramesInId3Tag frames = Return (tagOf frames).
Proof.
  unfold tagOf, embedFramesInId3Tag, encodeSize, Buffer.from.
  cbn [fmap list_fmap].
  generalize (byte_of_Z (Z.land (Z.shiftr (Buffer.length frames) 21) 127))
             (byte_of_Z (Z.land (Z.shiftr (Buffer.length frames) 14) 127))
             (byte_of_Z (Z.land (Z.shiftr (Buffer.length frames) 7) 127))
             (byte_of_Z (Z.land (Buffer.length frames) 127)).
  intros s0 s1 s2 s3.
  transitivity
    (Return (Buffer.concat
               [Buffer.fromString "ID3"
                  ++ [byte_of_Z 3; byte_of_Z 0; byte_of_Z 0]
                  ++ [s0; s1; s2; s3];
                frames])).
  - vm_compute. reflexivity.
  - unfold Buffer.concat. cbn [mjoin list_join]. by rewrite app_nil_r.
Qed.

(** The ten header bytes of [tagOf]. *)
Lemma tagOf_header (frames : Buffer.t) :
  exists s0 s1 s2 s3,
    encodeSize (Buffer.length frames) = [s0; s1; s2; s3] /\
    tagOf frames
    = "I"%byte :: "D"%byte :: "3"%byte :: Byte.x03 :: Byte.x00 :: Byte.x00
        :: s0 :: s1 :: s2 :: s3 :: frames.
Proof.
  unfold tagOf, encodeSize, Buffer.from. cbn [fmap list_fmap].
  by eexists _, _, _, _.
Qed.

(** A tag built by embed is a valid tag where it stands. *)
Lemma validTagAt_tagOf (before frames after : Buffer.t) :
  validTagAt (before ++ tagOf frames ++ after) (List.length before).
Proof.
  destruct (tagOf_header frames) as (s0 & s1 & s2 & s3 & Hsize & ->).
  assert (Hlookup : forall k,
            (before ++ ("I"%byte :: "D"%byte :: "3"%byte :: Byte.x03
                        :: Byte.x00 :: Byte.x00 :: s0 :: s1 :: s2 :: s3
                        :: frames) ++ after) !! (List.length before + k)%nat
            = (("I"%byte :: "D"%byte :: "3"%byte :: Byte.x03
                :: Byte.x00 :: Byte.x00 :: s0 :: s1 :: s2 :: s3
                :: frames) ++ after) !! k).
  { intros k. rewrite lookup_app_r by lia. f_equal. lia. }
  split.
  - unfold signatureAt. rewrite !Hlookup.
    rewrite <- (Nat.add_0_r (List.length before)) at 1. by rewrite Hlookup.
  - exists Byte.x03, Byte.x00, s0, s1, s2, s3. rewrite !Hlookup.
    repeat split; try done.
    + set_solver.
    + rewrite <- Hsize. apply encodeSize_valid.
Qed.

(** Bytes without the signature do not gain one by what follows them, when
    that starts with "I". *)
Lemma signatureAt_before (before rest : Buffer.t) (q : nat) :
  (forall q, ~ signatureAt before q) ->
  rest !! 0%nat = Some "I"%byte ->
  (q < List.length before)%nat ->
  ~ signatureAt (before ++ rest) q.
Proof.
  intros Hnone Hrest Hq (HI & HD & H3).
  destruct (decide (q + 2 < List.length before)%nat) as [Hin|Hout].
  - apply (Hnone q). unfold signatureAt.
    by rewrite !lookup_app_l in HI, HD, H3 by lia.
  - destruct (decide (q + 1 < List.length before)%nat) as [Hin1|Hout1].
    + rewrite lookup_app_r in H3 by lia.
      replace (q + 2 - List.length before)%nat with 0%nat in H3 by lia.
      congruence.
    + rewrite lookup_app_r in HD by lia.
      replace (q + 1 - List.length before)%nat with 0%nat in HD by lia.
      congruence.
Qed.

(** The locator on a buffer that holds [tagOf frames] after bytes without
    the signature. *)
Lemma tagOf_located (before frames after : Buffer.t) :
  (forall q, ~ signatureAt before q) ->
  findId3TagPosition (before ++ tagOf frames ++ after)
  = Return (Z.of_nat (List.length before)).
Proof.
  intros Hnone.
  destruct (findId3TagPosition_spec (before ++ tagOf frames ++ after))
    as [[_ Habsent]|(p & -> & Hv & Hmin)].
  - destruct (Habsent _ (validTagAt_tagOf before frames after)).
  - do 2 f_equal.
    destruct (Nat.lt_trichotomy p (List.length before)) as [Hlt|[->|Hgt]];
      [|done|].
    + exfalso. destruct Hv as [Hsig _].
      by apply (signatureAt_before before (tagOf frames ++ after) p).
    + destruct (Hmin _ Hgt (validTagAt_tagOf before frames after)).
Qed.

Lemma embedded_parts (before frames after : Buffer.t) :
  let data := before ++ tagOf frames ++ after in
  let p := List.length before in
  take p data = before /\
  take 4 (drop (p + 6) data) = encodeSize (Buffer.length frames) /\
  drop (p + 10) data = frames ++ after /\
  data !! (p + 3)%nat = Some Byte.x03 /\
  data !! (p + 5)%nat = Some Byte.x00.
Proof.
  intros data p. subst data p.
  destruct (tagOf_header frames) as (s0 & s1 & s2 & s3 & -> & ->).
  rewrite take_app_length, !drop_app_add.
  split; [done|]. split; [done|]. split; [done|]. split.
  - rewrite lookup_app_r by lia.
    by replace (List.length before + 3 - List.length before)%nat with 3%nat
      by lia.
  - rewrite lookup_app_r by lia.
    by replace (List.length before + 5 - List.length before)%nat with 5%nat
      by lia.
Qed.

(** Strip on such a buffer. *)
Lemma removeId3Tag_tagOf (before frames after : Buffer.t) :
  (forall q, ~ signatureAt before q) ->
  Buffer.length frames < 2 ^ 28 ->
  removeId3Tag (before ++ tagOf frames ++ after)
  = Return (IsBuffer (before ++ after)).
Proof.
  intros Hnone Hsize.
  rewrite (removeId3Tag_located_eq _ (List.length before))
    by (by apply tagOf_located).
  destruct (embedded_parts before frames after) as (Htake & Hfield & Hdrop & _).
  cbn zeta in Htake, Hfield, Hdrop. rewrite Htake, Hfield.
  rewrite decodeSize_encodeSize by (unfold Buffer.length in *; lia).
  unfold Buffer.length. rewrite Nat2Z.id.
  rewrite <- (drop_drop _ (List.length frames)), Hdrop.
  by rewrite drop_app_length.
Qed.

(** The body reader on such a buffer. *)
Lemma getId3TagBody_tagOf (before frames after : Buffer.t) :
  (forall q, ~ signatureAt before q) ->
  Buffer.length frames < 2 ^ 28 ->
  getId3TagBody (before ++ tagOf frames ++ after)
  = Return (Some {| version := Some 3; buffer := frames |}).
Proof.
  intros Hnone Hsize.
  pose proof (tagOf_located before frames after Hnone) as Hp.
  destruct (embedded_parts before frames after)
    as (_ & Hfield & Hdrop & Hmajor & Hflags).
  cbn zeta in Hfield, Hdrop, Hmajor, Hflags.
  rewrite (getId3TagBody_plain _ _ Byte.x03 Byte.x00 Hp Hmajor Hflags)
    by (by left).
  pose proof (findId3TagPosition_located _ _ Hp) as Hv.
  destruct (located_encodedSize _ _ Hv) as (_ & _ & Hlen).
  rewrite bodyAfter_header by done. rewrite Hfield, Hdrop.
  rewrite decodeSize_encodeSize by (unfold Buffer.length in *; lia).
  unfold Buffer.length. rewrite Nat2Z.id, take_app_length.
  apply (f_equal List.length) in Hdrop.
  rewrite length_drop, !length_app in Hdrop. rewrite !length_app.
  replace (List.length frames
           - (List.length before
              + (List.length (tagOf frames) + List.length after)
              - (List.length before + 10)))%nat with 0%nat by lia.
  by rewrite app_nil_r.
Qed.

(** X6. The locator finds the tag embed builds: [embedFramesInId3Tag]
    returns a tag for any frames, and in any buffer that holds this tag
    after bytes without the signature "ID3", the locator returns the offset
    at which the tag starts, whatever the frames and the bytes after it
    are. *)
Theorem findId3TagPosition_embedded (before frames after : Buffer.t) :
  (forall q, ~ signatureAt before q) ->
  exists tag,
    embedFramesInId3Tag frames = Return tag /\
    findId3TagPosition (before ++ tag ++ after)
    = Return (Z.of_nat (List.length before)).
Proof.
  intros Hnone. exists (tagOf frames).
  split; [apply embedFramesInId3Tag_tagOf|].
  by apply tagOf_located.
Qed.

Lemma findId3TagPosition_embedded_witness :
  let before := Buffer.from [0x02; 0x49; 0x44] in
  let frames := Buffer.from [0x54; 0x49; 0x54] in
  exists tag,
    embedFramesInId3Tag frames = Return tag /\
    findId3TagPosition (before ++ tag ++ Buffer.from [0x22]) = Return 3.
Proof.
  apply (findId3TagPosition_embedded
           (Buffer.from [0x02; 0x49; 0x44]) (Buffer.from [0x54; 0x49; 0x54])
           (Buffer.from [0x22])).
  intros q (HI & HD & H3). destruct q as [|[|[|q]]]; vm_compute in H3; done.
Defined.

(** X7. Strip undoes embed: from a buffer that holds the tag
    [embedFramesInId3Tag] returns for [frames] (shorter than 2^28 bytes)
    after bytes without the signature, [removeId3Tag] returns the bytes
    before and after the tag, the tag and nothing else removed. *)
Theorem removeId3Tag_embedded (before frames after tag : Buffer.t) :
  (forall q, ~ signatureAt before q) ->
  Buffer.length frames < 2 ^ 28 ->
  embedFramesInId3Tag frames = Return tag ->
  removeId3Tag (before ++ tag ++ after) = Return (IsBuffer (before ++ after)).
Proof.
  intros Hnone Hsize Htag.
  rewrite embedFramesInId3Tag_tagOf in Htag. injection Htag as <-.
  by apply removeId3Tag_tagOf.
Qed.

Lemma removeId3Tag_embedded_witness :
  let before := Buffer.from [0x02; 0x06] in
  let tag := Buffer.from [0x49; 0x44; 0x33; 3; 0; 0; 0; 0; 0; 3;
                          0x54; 0x49; 0x54] in
  let after := Buffer.from [0x12; 0x22] in
  removeId3Tag (before ++ tag ++ after) = Return (IsBuffer (before ++ after)).
Proof.
  apply (removeId3Tag_embedded
           (Buffer.from [0x02; 0x06]) (Buffer.from [0x54; 0x49; 0x54])
           (Buffer.from [0x12; 0x22])).
  - intros q (HI & _). destruct q as [|[|q]]; vm_compute in HI; done.
  - reflexivity.
  - vm_compute. reflexivity.
Defined.

(** X8. The body reader undoes embed: from a buffer that holds the tag
    [embedFramesInId3Tag] returns for [frames] (shorter than 2^28 bytes)
    after bytes without the signature, [getId3TagBody] returns version 3
    and the frames, byte for byte. *)
Theorem getId3TagBody_embedded (before frames after tag : Buffer.t) :
  (forall q, ~ signatureAt before q) ->
  Buffer.length frames < 2 ^ 28 ->
  embedFramesInId3Tag frames = Return tag ->
  getId3TagBody (before ++ tag ++ after)
  = Return (Some {| version := Some 3; buffer := frames |}).
Proof.
  intros Hnone Hsize Htag.
  rewrite embedFramesInId3Tag_tagOf in Htag. injection Htag as <-.
  by apply getId3TagBody_tagOf.
Qed.

Lemma getId3TagBody_embedded_witness :
  let frames := Buffer.from [0x54; 0x49; 0x54] in
  let tag := Buffer.from [0x49; 0x44; 0x33; 3; 0; 0; 0; 0; 0; 3;
                          0x54; 0x49; 0x54] in
  getId3TagBody (Buffer.from [0x02] ++ tag ++ Buffer.from [0x22])
  = Return (Some {| version := Some 3; buffer := frames |}).
Proof.
  apply (getId3TagBody_embedded
           (Buffer.from [0x02]) (Buffer.from [0x54; 0x49; 0x54])
           (Buffer.from [0x22])).
  - intros q (HI & _). destruct q as [|q]; vm_compute in HI; done.
  - reflexivity.
  - vm_compute. reflexivity.
Defined.

(** ** Create, then read or strip *)

Section CreateThenRead.

Context {WriteTags Options ReadTags : Type}.
Variable buildFramesBuffer : WriteTags -> Outcome Buffer.t.
Variable getTags : option TagBody -> Options -> Outcome ReadTags.

(** X9. What [createId3Tag] writes, [getTagsFromId3Tag] and [removeId3Tag]
    take back. When the frames built for [tags] are shorter than 2^28 bytes,
    [createId3Tag] returns a tag such that, whatever bytes follow it,
    reading hands the frame reader version 3 and exactly those frames, and
    strip returns exactly the bytes that follow. *)
Theorem createId3Tag_read_strip (tags : WriteTags) (frames : Buffer.t) :
  buildFramesBuffer tags = Return frames ->
  Buffer.length frames < 2 ^ 28 ->
  exists tag,
    createId3Tag buildFramesBuffer tags = Return tag /\
    List.length tag = (10 + List.length frames)%nat /\
    forall after : Buffer.t,
      removeId3Tag (tag ++ after) = Return (IsBuffer after) /\
      forall options,
        getTagsFromId3Tag getTags (tag ++ after) options
        = getTags (Some {| version := Some 3; buffer := frames |}) options.
Proof.
  intros Hframes Hsize. exists (tagOf frames).
  assert (Hnone : forall q, ~ signatureAt [] q) by (by intros q [? _]).
  split; [|split].
  - unfold createId3Tag. rewrite Hframes. apply embedFramesInId3Tag_tagOf.
  - by destruct (tagOf_header frames) as (? & ? & ? & ? & _ & ->).
  - intros after. split.
    + apply (removeId3Tag_tagOf [] frames after Hnone Hsize).
    + intros options. unfold getTagsFromId3Tag.
      pose proof (getId3TagBody_tagOf [] frames after Hnone Hsize) as Hbody.
      cbn [app] in Hbody. by rewrite Hbody.
Qed.

End CreateThenRead.

Lemma createId3Tag_read_strip_witness :
  let buildFramesBuffer := fun tags : Buffer.t => Return tags in
  let getTags := fun (body : option TagBody) (_ : unit) => Return body in
  let frames := Buffer.from [0x54; 0x49; 0x54; 0x32] in
  exists tag,
    createId3Tag buildFramesBuffer frames = Return tag /\
    removeId3Tag (tag ++ Buffer.from [0x02; 0x06])
    = Return (IsBuffer (Buffer.from [0x02; 0x06])) /\
    getTagsFromId3Tag getTags (tag ++ Buffer.from [0x02; 0x06]) ()
    = Return (Some {| version := Some 3; buffer := frames |}).
Proof.
  destruct (createId3Tag_read_strip
              (fun tags : Buffer.t => Return tags)
              (fun (body : option TagBody) (_ : unit) => Return body)
              (Buffer.from [0x54; 0x49; 0x54; 0x32])
              (Buffer.from [0x54; 0x49; 0x54; 0x32]) eq_refl eq_refl)
    as (tag & Hcreate & _ & Hafter).
  exists tag. split; [exact Hcreate|].
  destruct (Hafter (Buffer.from [0x02; 0x06])) as [Hstrip Hread].
  split; [exact Hstrip | exact (Hread ())].
Defined.

(** ** When the body reader throws *)

Lemma readUInt32BE_returns_or_throws (b : Buffer.t) (offset : Z) :
  Buffer.readUInt32BE b offset <> OutOfFuel.
Proof.
  unfold Buffer.readUInt32BE, Buffer.readUIntBE. by case_decide.
Qed.

Lemma alloc_copy_returns_or_throws {A} (k : Buffer.t -> Outcome A)
    (tagData : Buffer.t) (size total : Z) :
  (forall body, k body <> OutOfFuel) ->
  Buffer.alloc size ≫= (fun body => Buffer.copy tagData body 0 total ≫= k)
  <> OutOfFuel.
Proof.
  intros Hk. unfold Buffer.alloc. case_decide; [done|].
  cbn [mbind Outcome_bind]. unfold Buffer.copy.
  repeat case_decide; cbn [mbind Outcome_bind]; done || apply Hk.
Qed.

(** X11. [getId3TagBody] returns (a body, or [undefined]) on every buffer
    but one kind: it throws only at a located tag of major version 3 or 4
    whose extended-header flag, bit 6 of the flags byte, is set. *)
Theorem getId3TagBody_throws_only_extended (buffer : Buffer.t) :
  (exists body, getId3TagBody buffer = Return body) \/
  (exists e (p : nat) major flags,
      getId3TagBody buffer = Throws e /\
      findId3TagPosition buffer = Return (Z.of_nat p) /\
      buffer !! (p + 3)%nat = Some major /\
      buffer !! (p + 5)%nat = Some flags /\
      Z.testbit (byte_to_Z flags) 6 = true /\
      (byte_to_Z major = 3 \/ byte_to_Z major = 4)).
Proof.
  destruct (findId3TagPosition_cases buffer) as [Hnone|[p Hp]].
  { left. exists None. unfold getId3TagBody. by rewrite Hnone. }
  destruct (getId3TagBody_located _ _ Hp)
    as (major & revision & flags & s0 & s1 & s2 & s3 & rest & Hl).
  cbn zeta in Hl. destruct Hl as (_ & Hmajor & Hflags & _ & _ & _ & Heq).
  destruct (Z.testbit (byte_to_Z flags) 6) eqn:Hbit; cycle 1.
  { left. eexists. apply (getId3TagBody_plain buffer p major flags); auto. }
  destruct (decide (byte_to_Z major = 3 \/ byte_to_Z major = 4)) as [Hv|Hv];
    cycle 1.
  { left. eexists. apply (getId3TagBody_plain buffer p major flags); auto.
    right. split; intros ?; apply Hv; auto. }
  destruct (getId3TagBody buffer) as [body|e|] eqn:Hres.
  - left. by exists body.
  - right. by exists e, p, major, flags.
  - exfalso. clear Hres. symmetry in Heq. revert Heq.
    match goal with
    | |- ?ext ≫= _ = _ -> _ => destruct ext as [n|e|] eqn:Hext
    end; cbn [mbind Outcome_bind]; [|done|].
    + by apply alloc_copy_returns_or_throws.
    + exfalso. revert Hext.
      repeat match goal with
             | |- (if ?c then _ else _) = _ -> _ => destruct c
             end; try done.
      pose proof (readUInt32BE_returns_or_throws
                    (tagDataAt buffer p) Header.size) as Hread.
      by destruct (Buffer.readUInt32BE (tagDataAt buffer p) Header.size).
Qed.

(** ** The flags of a header *)

(** X12. [parseTagHeaderFlags] on any buffer: it reports an extended header
    exactly for a header of at least ten bytes whose major version byte is 3
    or 4 and whose flags byte has bit 6 set, and it reports the footer flag
    only for major version 4. *)
Theorem parseTagHeaderFlags_extendedHeader_iff (header : Buffer.t) :
  (truthy (extendedHeader (parseTagHeaderFlags header)) = true <->
   (10 <= List.length header)%nat /\
   exists major flags,
     header !! 3%nat = Some major /\ header !! 5%nat = Some flags /\
     (byte_to_Z major = 3 \/ byte_to_Z major = 4) /\
     Z.testbit (byte_to_Z flags) 6 = true) /\
  (footerPresent (parseTagHeaderFlags header) <> None ->
   exists major, header !! 3%nat = Some major /\ byte_to_Z major = 4).
Proof.
  unfold parseTagHeaderFlags, Buffer.length, Header.size.
  destruct (decide (Z.of_nat (List.length header) < 10)) as [Hshort|Hlong].
  { split; [|done]. split; [done|]. intros [Hlen _]. lia. }
  assert (is_Some (header !! 3%nat)) as [major Hmajor]
    by (apply lookup_lt_is_Some; lia).
  assert (is_Some (header !! 5%nat)) as [flags Hflags]
    by (apply lookup_lt_is_Some; lia).
  change (Buffer.get header 3) with (Buffer.get header (Z.of_nat 3)).
  change (Buffer.get header 5) with (Buffer.get header (Z.of_nat 5)).
  rewrite !Buffer_get_nat, Hmajor, Hflags. cbn [fmap option_fmap option_map].
  change 64 with (2 ^ 6). rewrite !flagBit_testbit by lia.
  unfold strictEq.
  destruct (decide (byte_to_Z major = 3)) as [H3|H3].
  { rewrite bool_decide_eq_true_2 by congruence.
    cbn [extendedHeader footerPresent truthy default from_option id].
    split; [|done]. split.
    - intros Hbit. split; [lia|]. exists major, flags. auto.
    - intros (_ & major' & flags' & [= <-] & [= <-] & _ & Hbit). done. }
  rewrite bool_decide_eq_false_2 by congruence.
  destruct (decide (byte_to_Z major = 4)) as [H4|H4].
  { rewrite bool_decide_eq_true_2 by congruence.
    cbn [extendedHeader footerPresent truthy default from_option id].
    split; [|by exists major]. split.
    - intros Hbit. split; [lia|]. exists major, flags. auto.
    - intros (_ & major' & flags' & [= <-] & [= <-] & _ & Hbit). done. }
  rewrite bool_decide_eq_false_2 by congruence.
  cbn [noFlags extendedHeader footerPresent truthy default from_option id].
  split; [|done]. split; [done|].
  intros (_ & major' & flags' & [= <-] & _ & [?|?] & _); done.
Qed.

(** ** What the header check reads *)

(** X13. [isValidId3Header] reads the first ten bytes only, and among them
    not the flags byte: two buffers that agree on the bytes 0 to 4 and 6 to
    9 get the same answer. *)
Theorem isValidId3Header_bytes_read (buffer other : Buffer.t) :
  (forall i, (i < 10)%nat -> i <> 5%nat -> buffer !! i = other !! i) ->
  isValidId3Header buffer = isValidId3Header other.
Proof.
  intros Hsame.
  destruct (isValidId3Header_spec buffer) as (valid & -> & Hvalid).
  destruct (isValidId3Header_spec other) as (valid' & -> & Hvalid').
  f_equal. apply eq_true_iff_eq. rewrite Hvalid, Hvalid'.
  unfold validTagAt, signatureAt, headerChecksAt. cbn [Nat.add].
  by rewrite !Hsame by lia.
Qed.

Lemma isValidId3Header_bytes_read_witness :
  isValidId3Header (Buffer.from [0x49; 0x44; 0x33; 3; 0; 0xFF; 0; 0; 0; 2; 7])
  = isValidId3Header (Buffer.from [0x49; 0x44; 0x33; 3; 0; 0; 0; 0; 0; 2]).
Proof.
  apply (isValidId3Header_bytes_read
           (Buffer.from [0x49; 0x44; 0x33; 3; 0; 0xFF; 0; 0; 0; 2; 7])
           (Buffer.from [0x49; 0x44; 0x33; 3; 0; 0; 0; 0; 0; 2])).
  intros i Hi H5.
  destruct i as [|[|[|[|[|[|[|[|[|[|i]]]]]]]]]]; (reflexivity || lia).
Defined.

(** ** Reading without a tag *)

Section ReadWithoutTag.

Context {Options ReadTags : Type}.
Variable getTags : option TagBody -> Options -> Outcome ReadTags.

(** X14. On a buffer that holds a valid tag at no offset,
    [getTagsFromId3Tag] is the frame reader called with [undefined] for the
    tag body. *)
Theorem getTagsFromId3Tag_without_tag (buffer : Buffer.t) (options : Options) :
  (forall q, ~ validTagAt buffer q) ->
  getTagsFromId3Tag getTags buffer options = getTags None options.
Proof.
  intros Hnone. apply findId3TagPosition_none_iff in Hnone.
  unfold getTagsFromId3Tag, getId3TagBody. by rewrite Hnone.
Qed.

End ReadWithoutTag.

Lemma getTagsFromId3Tag_without_tag_witness :
  getTagsFromId3Tag (fun (body : option TagBody) (_ : unit) => Return body)
    (Buffer.from [0x49; 0x44]) ()
  = Return None.
Proof.
  apply (getTagsFromId3Tag_without_tag
           (fun (body : option TagBody) (_ : unit) => Return body)
           (Buffer.from [0x49; 0x44]) ()).
  intros q [(_ & _ & H3) _]. destruct q as [|[|q]]; vm_compute in H3; done.
Defined.

(** * Further properties of the merge *)

(** ** When nothing is merged *)

(** X15. [updateFrameIfMultiple] returns [null] exactly when the frame is
    not multi-valued, the new value is falsy ([undefined] or the empty
    string), or the existing value is not an array; the store is then as it
    was. In every other case it returns an array. *)
Theorem updateFrameIfMultiple_null_iff (options : FrameOptions)
    (newTag currentTag : Value) (h : Heap) :
  let merged := updateFrameIfMultiple options newTag currentTag h in
  (merged.1 = None <->
   multiple options = false \/ Value_truthy newTag = false \/
   Array_isArray currentTag = false) /\
  (merged.1 = None -> merged.2 = h) /\
  (merged.1 <> None -> exists array, merged.1 = Some (VArray array)).
Proof.
  unfold updateFrameIfMultiple.
  destruct (multiple options); cbn [negb orb]; [|by intuition].
  destruct (Value_truthy newTag) eqn:Hnew; cbn [negb orb]; [|by intuition].
  destruct currentTag as [|item|currentTag];
    [by intuition | by destruct item; cbn; try case_bool_decide; intuition |].
  cbn [Value_truthy Array_isArray negb orb].
  destruct newTag as [|item|newTagArray]; [done|..]; cbn [newTagArray_of];
    unfold newArray; destruct (negb (compareKey_truthy _)); cbn [fst snd];
    (split; [split; [done | by intros [?|[?|?]]] | split; [done | eauto]]).
Qed.

(** ** What the merge never does *)

Lemma sameCompareValue_trans (compareKey : option string) (a b c : Item) :
  sameCompareValue compareKey a b -> sameCompareValue compareKey b c ->
  sameCompareValue compareKey a c.
Proof.
  intros [->|(key & value & Hkey & Ha & Hb)] [->|(key' & value' & Hkey' & Hb' & Hc)].
  - by left.
  - right. by exists key', value'.
  - right. by exists key, value.
  - right. exists key, value. rewrite Hkey in Hkey'. injection Hkey' as <-.
    rewrite Hb in Hb'. injection Hb' as <-. done.
Qed.

Lemma keepsPlaces_refl (compareKey : option string) (items : list Item) :
  keepsPlaces compareKey items items.
Proof. intros i item Hi. exists item. split; [done | by left]. Qed.

Lemma keepsPlaces_trans (compareKey : option string) (l1 l2 l3 : list Item) :
  keepsPlaces compareKey l1 l2 -> keepsPlaces compareKey l2 l3 ->
  keepsPlaces compareKey l1 l3.
Proof.
  intros H12 H23 i item Hi.
  destruct (H12 i item Hi) as (item' & Hi' & Hsame).
  destruct (H23 i item' Hi') as (item'' & Hi'' & Hsame').
  exists item''. split; [done|]. by eapply sameCompareValue_trans.
Qed.

Lemma keepsPlaces_same (compareKey : option string) (l1 l2 : list Item) :
  (forall i item, l1 !! i = Some item -> l2 !! i = Some item) ->
  keepsPlaces compareKey l1 l2.
Proof. intros H i item Hi. exists item. split; [by apply H | by left]. Qed.

Lemma keepsPlaces_length (compareKey : option string) (l1 l2 : list Item) :
  keepsPlaces compareKey l1 l2 -> (List.length l1 <= List.length l2)%nat.
Proof.
  intros Hkeeps.
  destruct (decide (List.length l1 <= List.length l2)%nat) as [|Hlt]; [done|].
  destruct (lookup_lt_is_Some_2 l1 (List.length l2)) as [item Hitem]; [lia|].
  destruct (Hkeeps _ _ Hitem) as (item' & Hitem' & _).
  apply lookup_lt_Some in Hitem'. lia.
Qed.

(** Assigning to [__proto__] is ignored: the index never has it as a key. *)
Lemma compareValueToFrameIndex_proto (compareKey : string) (existing : list Item) :
  compareValueToFrameIndex compareKey existing !! "__proto__"%string = None.
Proof.
  unfold compareValueToFrameIndex. generalize (imap pair existing).
  intros entries.
  assert (Hfold : forall object : FrameIndex,
    object !! "__proto__"%string = None ->
    foldl (fun object '(index, tag) =>
             match tag with
             | IObject record =>
                 let compareValue := Record_get record compareKey in
                 FrameIndex_set object (ToPropertyKey compareValue) index
             | IString _ => object
             end)
          object entries !! "__proto__"%string = None).
  { induction entries as [|[index tag] entries IH]; intros object Hobject;
      cbn [foldl]; [done|].
    apply IH. destruct tag as [s|record]; [done|]. cbn zeta.
    unfold FrameIndex_set. case_bool_decide; [done|].
    by rewrite lookup_insert_ne. }
  apply Hfold. apply lookup_empty.
Qed.

(** A number read from the index is the position of a record of the array
    the index was built from, and that record has the comparison value
    looked up. *)
Lemma FrameIndex_get_position (compareKey : string) (existing : list Item)
    (value : string) (position : nat) :
  FrameIndex_get (compareValueToFrameIndex compareKey existing) value
  = INumber position ->
  exists item, existing !! position = Some item /\
               compareValue compareKey item = Some value.
Proof.
  unfold FrameIndex_get.
  destruct (compareValueToFrameIndex compareKey existing !! value)
    as [found|] eqn:Hlookup; [|by case_bool_decide].
  intros [= ->]. destruct (decide (value = "__proto__"%string)) as [->|Hne].
  - by rewrite compareValueToFrameIndex_proto in Hlookup.
  - rewrite compareValueToFrameIndex_lookup in Hlookup by done.
    destruct (lastPositionFrom_Some _ _ _ _ _ Hlookup)
      as (item & _ & Hitem & Hvalue & _).
    rewrite Nat.sub_0_r in Hitem. eauto.
Qed.

Lemma Array_forEach_invariant (P : Heap -> Prop) (array : loc)
    (callback : Item -> Heap -> Heap) (h : Heap) :
  (forall item h, P h -> P (callback item h)) ->
  P h -> P (Array_forEach array callback h).
Proof.
  intros Hcallback. unfold Array_forEach.
  generalize (seq 0 (List.length (readArray h array))). intros indices.
  revert h. induction indices as [|i indices IH]; intros h Hh; cbn [foldl];
    [done|].
  apply IH. destruct (readArray h array !! i); [by apply Hcallback | done].
Qed.

(** A step of the second [forEach] keeps the places of the array the index
    was built from. *)
Lemma updateFrame_callback_keepsPlaces (compareKey : string)
    (existing : list Item) (currentTag : loc) (item : Item) (h : Heap) :
  keepsPlaces (Some compareKey) existing (readArray h currentTag) ->
  keepsPlaces (Some compareKey) existing
    (readArray
       (updateFrame_callback compareKey
          (compareValueToFrameIndex compareKey existing) currentTag item h)
       currentTag).
Proof.
  intros Hkeeps.
  assert (Hpush : keepsPlaces (Some compareKey) existing
                    (readArray (Array_push currentTag item h) currentTag)).
  { unfold Array_push. rewrite readArray_writeArray, decide_True by done.
    intros i old Hold. destruct (Hkeeps i old Hold) as (now & Hnow & Hsame).
    exists now. split; [by apply lookup_app_l_Some | done]. }
  unfold updateFrame_callback. destruct item as [s|record]; [done|].
  destruct (FrameIndex_in _ _); [|done].
  destruct (FrameIndex_get _ _) as [position| |] eqn:Hget; [|done..].
  destruct (FrameIndex_get_position _ _ _ _ Hget) as (found & Hfound & Hvalue).
  unfold Array_set. rewrite readArray_writeArray, decide_True by done.
  intros i old Hold. destruct (Hkeeps i old Hold) as (now & Hnow & Hsame).
  destruct (decide (position = i)) as [->|Hne].
  - exists (IObject record). split.
    + apply list_lookup_insert_eq. by apply lookup_lt_Some in Hnow.
    + right. exists compareKey, (ToPropertyKey (Record_get record compareKey)).
      split; [done|]. split; [|done]. congruence.
  - exists now. split; [|done]. by rewrite list_lookup_insert_ne.
Qed.

(** A new array takes the place of no element of the store. *)
Lemma newArray_keeps (h : Heap) (items : list Item) (array : loc) (i : nat)
    (item : Item) :
  readArray h array !! i = Some item ->
  readArray (newArray h items).2 array !! i = Some item.
Proof.
  intros Hitem. unfold newArray. cbn [snd]. rewrite readArray_writeArray.
  case_decide as Hfresh; [|done]. exfalso.
  pose proof (is_fresh (dom (arrays h))) as Hnew. rewrite Hfresh in Hnew.
  apply not_elem_of_dom in Hnew. unfold readArray in Hitem.
  by rewrite Hnew in Hitem.
Qed.

(** Every array of the store keeps its places through
    [updateFrameIfMultiple]. *)
Lemma updateFrameIfMultiple_keepsPlaces (options : FrameOptions)
    (newTag currentTag : Value) (h : Heap) (array : loc) :
  let merged := updateFrameIfMultiple options newTag currentTag h in
  keepsPlaces (updateCompareKey options)
    (readArray h array) (readArray merged.2 array).
Proof.
  unfold updateFrameIfMultiple.
  destruct (negb (multiple options) || negb (Value_truthy newTag)
            || negb (Value_truthy currentTag) || negb (Array_isArray currentTag));
    [apply keepsPlaces_refl|].
  destruct currentTag as [| |currentTag]; [apply keepsPlaces_refl..|].
  assert (Hrest : forall newTagArray h1,
    (forall a i item, readArray h a !! i = Some item ->
                      readArray h1 a !! i = Some item) ->
    keepsPlaces (updateCompareKey options) (readArray h array)
      (readArray
         (if negb (compareKey_truthy (updateCompareKey options)) then
            let '(result, h2) :=
              newArray h1 (readArray h1 currentTag ++ readArray h1 newTagArray) in
            (Some (VArray result), h2)
          else
            let compareKey := default ""%string (updateCompareKey options) in
            let index := compareValueToFrameIndex compareKey (readArray h1 currentTag) in
            let h2 := Array_forEach newTagArray
                        (updateFrame_callback compareKey index currentTag) h1 in
            (Some (VArray currentTag), h2)).2 array)).
  { intros newTagArray h1 Hsame.
    destruct (updateCompareKey options) as [compareKey|];
      cbn [compareKey_truthy negb default from_option id];
      [destruct (negb (negb (bool_decide (compareKey = ""%string))))|];
      cbn zeta.
    - apply keepsPlaces_same. intros i item Hitem.
      by apply (newArray_keeps h1), Hsame.
    - cbn [snd]. eapply keepsPlaces_trans;
        [apply keepsPlaces_same, Hsame|].
      destruct (decide (array = currentTag)) as [->|Hne].
      + apply (Array_forEach_invariant
                 (fun h' => keepsPlaces (Some compareKey)
                              (readArray h1 currentTag)
                              (readArray h' currentTag))).
        * intros item h'. apply updateFrame_callback_keepsPlaces.
        * apply keepsPlaces_refl.
      + unfold readArray at 2.
        rewrite Array_forEach_other
          by (intros; by apply updateFrame_callback_other).
        apply keepsPlaces_refl.
    - apply keepsPlaces_same. intros i item Hitem.
      by apply (newArray_keeps h1), Hsame. }
  destruct newTag as [|item|newTagArray]; cbn [newTagArray_of].
  - apply keepsPlaces_refl.
  - unfold newArray at 1 2. apply Hrest. intros a i old.
    apply (newArray_keeps h [item]).
  - by apply Hrest.
Qed.

(** X16. What [updateFrameIfMultiple] never does to an array of the store,
    whatever the frame options and the values are: it removes no element
    and moves none, so no array gets shorter, and it replaces an element
    only by a record with the same value at the comparison key of the
    frame. *)
Theorem updateFrameIfMultiple_keeps_places (options : FrameOptions)
    (newTag currentTag : Value) (h : Heap) (array : loc) :
  let merged := updateFrameIfMultiple options newTag currentTag h in
  (forall i item,
      readArray h array !! i = Some item ->
      exists item',
        readArray merged.2 array !! i = Some item' /\
        (item' = item \/
         exists key value,
           updateCompareKey options = Some key /\
           compareValue key item = Some value /\
           compareValue key item' = Some value)) /\
  (List.length (readArray h array)
   <= List.length (readArray merged.2 array))%nat.
Proof.
  intros merged.
  pose proof (updateFrameIfMultiple_keepsPlaces options newTag currentTag h
                array) as Hkeeps.
  split; [exact Hkeeps|]. by eapply keepsPlaces_length.
Qed.

Lemma grows_refl (h : Heap) : grows h h.
Proof. by intros array. Qed.

Lemma grows_trans (h1 h2 h3 : Heap) : grows h1 h2 -> grows h2 h3 -> grows h1 h3.
Proof. intros H12 H23 array. specialize (H12 array). specialize (H23 array). lia. Qed.

Lemma updateTags_callback_grows (getSpecOptions : string -> FrameOptions)
    (newRawTags : list (string * Value)) (currentRawTags : loc) (h : Heap)
    (frameIdentifier : string) :
  grows h (updateTags_callback getSpecOptions newRawTags currentRawTags h
             frameIdentifier).
Proof.
  rewrite step_unfold. intros array.
  change (readArray (setProperty ?h' _ _ _) array) with (readArray h' array).
  eapply keepsPlaces_length, updateFrameIfMultiple_keepsPlaces.
Qed.

Section NeverShortens.

Context {WriteTags : Type}.
Variable convertWriteTagsToRawTags : WriteTags -> list (string * Value).
Variable getSpecOptions : string -> FrameOptions.

(** X17. [updateTags] never shortens an array: whatever the new tags, the
    existing tags and the frame options are, every array of the store has
    at least as many elements after the call as before. *)
Theorem updateTags_never_shortens (newTags : WriteTags) (currentTags : Tags)
    (h : Heap) :
  grows h
    (updateTags convertWriteTagsToRawTags getSpecOptions newTags currentTags h).2.
Proof.
  destruct (updateTags_unfold convertWriteTagsToRawTags getSpecOptions
              newTags currentTags h) as (-> & _ & _ & Harrays).
  cbn [snd].
  set (start := match raw currentTags with
                | Some object => (object, h)
                | None => newObject h
                end) in *.
  assert (Hstart : grows h start.2)
    by (intros array; unfold readArray; by rewrite Harrays).
  revert Hstart. generalize start.2.
  generalize ((convertWriteTagsToRawTags newTags).*1). intros keys.
  induction keys as [|key keys IH]; intros h1 Hh1; cbn [foldl]; [done|].
  apply IH. eapply grows_trans; [exact Hh1|]. apply updateTags_callback_grows.
Qed.

(** X18. A falsy new value ([undefined] or the empty string) replaces
    whatever the identifier held, an array of a multi-valued frame
    included: nothing is merged, and the resulting mapping holds the falsy
    value under the identifier. *)
Theorem updateTags_falsy_replaces (newTags : WriteTags) (currentTags : Tags)
    (h : Heap) (frameIdentifier : string) (newFrame : Value) :
  let newRawTags := convertWriteTagsToRawTags newTags in
  let merged :=
    updateTags convertWriteTagsToRawTags getSpecOptions newTags currentTags h in
  NoDup newRawTags.*1 ->
  (frameIdentifier, newFrame) ∈ newRawTags ->
  Value_truthy newFrame = false ->
  ownProperty merged.2 merged.1 frameIdentifier = Some newFrame.
Proof.
  intros newRawTags merged Hnodup Hentry Hfalsy.
  destruct (updateTags_unfold convertWriteTagsToRawTags getSpecOptions
              newTags currentTags h) as (Heq & _).
  fold newRawTags in Heq. subst merged. rewrite Heq. cbn [fst snd].
  set (start := match raw currentTags with
                | Some object => (object, h)
                | None => newObject h
                end) in *.
  assert (Hin : frameIdentifier ∈ newRawTags.*1)
    by (apply list_elem_of_fmap; by exists (frameIdentifier, newFrame)).
  destruct (steps_present getSpecOptions newRawTags start.1 _ start.2
              frameIdentifier Hnodup Hin) as (h1 & _ & _ & ->).
  f_equal. unfold storedFrame.
  rewrite (RawTags_get_elem _ _ _ Hnodup Hentry).
  unfold updateFrameIfMultiple. rewrite Hfalsy. cbn [negb orb].
  by rewrite orb_true_r.
Qed.

End NeverShortens.

Lemma updateTags_falsy_replaces_witness :
  let newTags := [("TXXX"%string, VItem (IString ""))] in
  let merged := updateTags exampleConvert exampleOptions newTags exampleTags
                  exampleHeap in
  ownProperty exampleHeap 1%positive "TXXX" = Some (VArray 1%positive) /\
  ownProperty merged.2 merged.1 "TXXX" = Some (VItem (IString "")).
Proof.
  split; [reflexivity|].
  apply (updateTags_falsy_replaces exampleConvert exampleOptions
           [("TXXX"%string, VItem (IString ""))] exampleTags exampleHeap
           "TXXX" (VItem (IString ""))).
  - apply NoDup_singleton.
  - apply list_elem_of_here.
  - reflexivity.
Defined.

(** ** Merging one record *)

Lemma updateFrameIfMultiple_appends_without_key_witness :
  let options := {| multiple := true; updateCompareKey := None |} in
  let h := {| arrays := {[ 1%positive := [IString "a"] ]}; objects := ∅ |} in
  let merged :=
    updateFrameIfMultiple options (VItem (IString "b")) (VArray 1%positive) h in
  exists result,
    merged.1 = Some (VArray result) /\
    arrays h !! result = None /\
    readArray merged.2 result = [IString "a"; IString "b"] /\
    readArray merged.2 1%positive = [IString "a"].
Proof.
  destruct (updateFrameIfMultiple_appends_without_key
              {| multiple := true; updateCompareKey := None |}
              (VItem (IString "b")) 1%positive
              {| arrays := {[ 1%positive := [IString "a"] ]}; objects := ∅ |}
              eq_refl eq_refl eq_refl)
    as (result & Hresult & Hnew & Hitems & Hsame); [by eexists|].
  exists result. split; [exact Hresult|]. split; [exact Hnew|].
  split; [exact Hitems|].
  unfold readArray. rewrite Hsame; [reflexivity|]. by eexists.
Defined.

(** The position of a record with [value] after which no element has it is
    the one the index of the spec gives. *)
Lemma lastPositionFrom_unique (compareKey : string) (items : list Item)
    (value : string) (position : nat) (item : Item) :
  items !! position = Some item ->
  compareValue compareKey item = Some value ->
  (forall later item', (position < later)%nat -> items !! later = Some item' ->
                       compareValue compareKey item' <> Some value) ->
  lastPositionFrom compareKey 0 items value = Some position.
Proof.
  intros Hitem Hvalue Hlast.
  destruct (lastPositionFrom compareKey 0 items value) as [found|] eqn:Hfound.
  - destruct (lastPositionFrom_Some _ _ _ _ _ Hfound)
      as (item' & _ & Hitem' & Hvalue' & Hlast').
    rewrite Nat.sub_0_r in Hitem', Hlast'. f_equal.
    destruct (Nat.lt_trichotomy found position) as [Hlt|[->|Hgt]]; [|done|].
    + by destruct (Hlast' position item Hlt Hitem).
    + by destruct (Hlast found item' Hgt Hitem').
  - by destruct (lastPositionFrom_None _ _ _ _ Hfound position item Hitem).
Qed.

(** The merge of the spec for one record: it is appended when no element
    has its comparison value, and takes the place of the last element that
    has it otherwise. *)
Lemma specMergeRecord_cases (compareKey : string) (existing : list Item)
    (record : TagRecord) :
  let value := ToPropertyKey (Record_get record compareKey) in
  let merged :=
    specMergeRecord compareKey existing existing (IObject record) in
  ((forall i item, existing !! i = Some item ->
                   compareValue compareKey item <> Some value) /\
   merged = existing ++ [IObject record]) \/
  (exists position old,
      existing !! position = Some old /\
      compareValue compareKey old = Some value /\
      (forall later item, (position < later)%nat ->
                          existing !! later = Some item ->
                          compareValue compareKey item <> Some value) /\
      merged = <[position := IObject record]> existing).
Proof.
  intros value merged. subst merged. unfold specMergeRecord.
  cbn [compareValue]. fold value.
  destruct (lastPositionFrom compareKey 0 existing value) as [position|]
    eqn:Hposition.
  - right. destruct (lastPositionFrom_Some _ _ _ _ _ Hposition)
      as (old & _ & Hold & Hvalue & Hlast).
    rewrite Nat.sub_0_r in Hold, Hlast. by exists position, old.
  - left. split; [|done]. by apply (lastPositionFrom_None _ _ _ _ Hposition).
Qed.

(** Merging the record once more changes nothing. *)
Lemma specMergeRecord_twice (compareKey : string) (existing : list Item)
    (record : TagRecord) :
  let merged :=
    specMergeRecord compareKey existing existing (IObject record) in
  specMergeRecord compareKey merged merged (IObject record) = merged.
Proof.
  intros merged.
  set (value := ToPropertyKey (Record_get record compareKey)).
  assert (exists position,
            merged !! position = Some (IObject record) /\
            forall later item, (position < later)%nat ->
                               merged !! later = Some item ->
                               compareValue compareKey item <> Some value)
    as (position & Hrecord & Hlast).
  { destruct (specMergeRecord_cases compareKey existing record)
      as [[Hnone Hmerged]|(position & old & Hold & _ & Hlast & Hmerged)];
      fold merged in Hmerged; rewrite Hmerged.
    - exists (List.length existing). split; [by apply list_lookup_middle|].
      intros later item Hlater Hitem. apply lookup_lt_Some in Hitem.
      rewrite length_app in Hitem. cbn [List.length] in Hitem. lia.
    - exists position. split.
      + apply list_lookup_insert_eq. by apply lookup_lt_Some in Hold.
      + intros later item Hlater Hitem.
        rewrite list_lookup_insert_ne in Hitem by lia. by eapply Hlast. }
  unfold specMergeRecord at 1. cbn [compareValue]. fold value.
  rewrite (lastPositionFrom_unique compareKey merged value position
             (IObject record) Hrecord eq_refl Hlast).
  by apply list_insert_id.
Qed.

(** X20. Merging one record into a multi-valued frame with a comparison
    key, when the record's comparison value is no name inherited from
    [Object.prototype]: the existing array itself is returned; the record is
    appended when no existing element has its comparison value, and takes
    the place of the last element that has it otherwise, every other
    element staying where it is. *)
Theorem updateFrameIfMultiple_single_record (options : FrameOptions)
    (compareKey : string) (record : TagRecord) (currentTag : loc) (h : Heap) :
  multiple options = true ->
  updateCompareKey options = Some compareKey ->
  compareKey <> ""%string ->
  is_Some (arrays h !! currentTag) ->
  let value := ToPropertyKey (Record_get record compareKey) in
  value ∉ Object_prototype ->
  let existing := readArray h currentTag in
  let merged :=
    updateFrameIfMultiple options (VItem (IObject record)) (VArray currentTag) h in
  merged.1 = Some (VArray currentTag) /\
  (((forall i item, existing !! i = Some item ->
                    compareValue compareKey item <> Some value) /\
    readArray merged.2 currentTag = existing ++ [IObject record]) \/
   (exists position old,
       existing !! position = Some old /\
       compareValue compareKey old = Some value /\
       (forall later item, (position < later)%nat ->
                           existing !! later = Some item ->
                           compareValue compareKey item <> Some value) /\
       readArray merged.2 currentTag
       = <[position := IObject record]> existing)).
Proof.
  intros Hmultiple Hkey Hnonempty Hexists value Hown existing merged.
  destruct (updateFrameIfMultiple_refines_specMerge options compareKey
              (VItem (IObject record)) currentTag h Hmultiple Hkey Hnonempty
              eq_refl Hexists)
    as (Hresult & Hmerged & _); [done | |].
  { intros item value' ->%list_elem_of_singleton [= <-]. exact Hown. }
  split; [exact Hresult|]. fold merged in Hmerged. rewrite Hmerged.
  apply specMergeRecord_cases.
Qed.

Lemma updateFrameIfMultiple_single_record_witness :
  let existing := [userDefinedText "abc" "1"; userDefinedText "xyz" "2";
                   userDefinedText "abc" "3"] in
  let h := {| arrays := {[ 1%positive := existing ]}; objects := ∅ |} in
  let merged :=
    updateFrameIfMultiple (exampleOptions "TXXX")
      (VItem (userDefinedText "abc" "new")) (VArray 1%positive) h in
  merged.1 = Some (VArray 1%positive) /\
  readArray merged.2 1%positive
  = [userDefinedText "abc" "1"; userDefinedText "xyz" "2";
     userDefinedText "abc" "new"].
Proof.
  destruct (updateFrameIfMultiple_single_record
              (exampleOptions "TXXX") "description"
              [("description"%string, "abc"%string);
               ("value"%string, "new"%string)]
              1%positive
              {| arrays := {[ 1%positive :=
                                [userDefinedText "abc" "1";
                                 userDefinedText "xyz" "2";
                                 userDefinedText "abc" "3"] ]};
                 objects := ∅ |}
              eq_refl eq_refl)
    as (Hresult & _).
  - discriminate.
  - by eexists.
  - vm_compute. intros Hin. repeat (inversion Hin as [|? ? ? Hin']; subst; clear Hin; rename Hin' into Hin; try discriminate).
  - split; [exact Hresult | reflexivity].
Defined.

(** A comparison key that names an inherited member. With the key
    [constructor], a record without that property of its own is indexed
    under the text of the function it inherits, [Object]; a new record that
    holds this text as its own [constructor] has the same comparison value
    and takes its place. *)
Example updateFrameIfMultiple_inherited_compare_key :
  let options :=
    {| multiple := true; updateCompareKey := Some "constructor"%string |} in
  let existing := [IObject [("description"%string, "abc"%string)]] in
  let new :=
    IObject [("constructor"%string,
              "function Object() { [native code] }"%string)] in
  let h := {| arrays := {[ 1%positive := existing ]}; objects := ∅ |} in
  let merged :=
    updateFrameIfMultiple options (VItem new) (VArray 1%positive) h in
  compareValue "constructor" (IObject [("description"%string, "abc"%string)])
  = compareValue "constructor" new /\
  merged.1 = Some (VArray 1%positive) /\
  readArray merged.2 1%positive = [new].
Proof. repeat split; reflexivity. Qed.

(** X21. Updating twice with the same record is updating once: after a
    record has been merged into a multi-valued frame with a comparison key,
    merging the same record again leaves the array as it is. *)
Theorem updateFrameIfMultiple_twice (options : FrameOptions)
    (compareKey : string) (record : TagRecord) (currentTag : loc) (h : Heap) :
  multiple options = true ->
  updateCompareKey options = Some compareKey ->
  compareKey <> ""%string ->
  is_Some (arrays h !! currentTag) ->
  ToPropertyKey (Record_get record compareKey) ∉ Object_prototype ->
  let newTag := VItem (IObject record) in
  let once := updateFrameIfMultiple options newTag (VArray currentTag) h in
  let twice := updateFrameIfMultiple options newTag (VArray currentTag) once.2 in
  twice.1 = Some (VArray currentTag) /\
  readArray twice.2 currentTag = readArray once.2 currentTag.
Proof.
  intros Hmultiple Hkey Hnonempty Hexists Hown newTag once twice.
  assert (Hitems : forall h' item value,
            item ∈ newItems h' newTag ->
            compareValue compareKey item = Some value ->
            value ∉ Object_prototype).
  { intros h' item value ->%list_elem_of_singleton [= <-]. exact Hown. }
  destruct (updateFrameIfMultiple_refines_specMerge options compareKey
              newTag currentTag h Hmultiple Hkey Hnonempty eq_refl Hexists)
    as (_ & Honce & _); [done | by apply Hitems |].
  fold once in Honce.
  assert (Hexists' : is_Some (arrays once.2 !! currentTag)).
  { destruct (updateFrameIfMultiple_result options newTag (VArray currentTag) h)
      as [[_ Hdom] _].
    apply elem_of_dom, Hdom, elem_of_dom, Hexists. }
  destruct (updateFrameIfMultiple_refines_specMerge options compareKey
              newTag currentTag once.2 Hmultiple Hkey Hnonempty eq_refl Hexists')
    as (Hresult & Htwice & _); [done | by apply Hitems |].
  fold twice in Hresult, Htwice. split; [exact Hresult|].
  rewrite Htwice, Honce. apply specMergeRecord_twice.
Qed.

Lemma updateFrameIfMultiple_twice_witness :
  let h := {| arrays := {[ 1%positive := [userDefinedText "abc" "deg"] ]};
              objects := ∅ |} in
  let newTag := VItem (userDefinedText "other" "new") in
  let once :=
    updateFrameIfMultiple (exampleOptions "TXXX") newTag (VArray 1%positive) h in
  let twice :=
    updateFrameIfMultiple (exampleOptions "TXXX") newTag (VArray 1%positive)
      once.2 in
  readArray once.2 1%positive
  = [userDefinedText "abc" "deg"; userDefinedText "other" "new"] /\
  readArray twice.2 1%positive = readArray once.2 1%positive.
Proof.
  split; [reflexivity|].
  refine (proj2 (updateFrameIfMultiple_twice
                   (exampleOptions "TXXX") "description"
                   [("description"%string, "other"%string);
                    ("value"%string, "new"%string)]
                   1%positive
                   {| arrays := {[ 1%positive := [userDefinedText "abc" "deg"] ]};
                      objects := ∅ |}
                   eq_refl eq_refl _ _ _)).
  - discriminate.
  - by eexists.
  - vm_compute. intros Hin.
    repeat (inversion Hin as [|? ? ? Hin']; subst; clear Hin;
            rename Hin' into Hin; try discriminate).
Defined.

(** ** The merge through [updateTags] *)

Section MergeThroughUpdateTags.

Context {WriteTags : Type}.
Variable convertWriteTagsToRawTags : WriteTags -> list (string * Value).
Variable getSpecOptions : string -> FrameOptions.

(** X22. [updateTags] deletes no frame and adds none but the new ones: the
    identifiers of the returned raw tags are the identifiers it had and the
    identifiers of the new tags. *)
Theorem updateTags_identifiers (newTags : WriteTags) (currentTags : Tags)
    (h : Heap) (frameIdentifier : string) :
  let newRawTags := convertWriteTagsToRawTags newTags in
  let merged :=
    updateTags convertWriteTagsToRawTags getSpecOptions newTags currentTags h in
  is_Some (ownProperty merged.2 merged.1 frameIdentifier) <->
  is_Some (ownProperty h merged.1 frameIdentifier) \/
  frameIdentifier ∈ newRawTags.*1.
Proof.
  intros newRawTags merged.
  destruct (updateTags_unfold convertWriteTagsToRawTags getSpecOptions
              newTags currentTags h) as (Heq & Hstart & _).
  fold newRawTags in Heq. subst merged. rewrite Heq. cbn [fst snd].
  set (start := match raw currentTags with
                | Some object => (object, h)
                | None => newObject h
                end) in *.
  rewrite <- Hstart. generalize start.2. generalize (newRawTags.*1).
  intros keys. induction keys as [|key keys IH]; intros h1; cbn [foldl].
  - rewrite elem_of_nil. tauto.
  - rewrite IH, step_ownProperty, elem_of_cons.
    case_decide as Hkey; [subst key | intuition congruence].
    split; [intros _; right; by left | intros _; left; by eexists].
Qed.

(** X23. A record for a multi-valued frame with a comparison key, merged
    through [updateTags] into an existing array that no other identifier
    among the new tags holds: the identifier still holds the existing array,
    and in it the record is appended when no element has its comparison
    value, or stands in place of the last element that has it. The record's
    comparison value is no name inherited from [Object.prototype]. *)
Theorem updateTags_merges_record (newTags : WriteTags) (currentTags : Tags)
    (h : Heap) (frameIdentifier compareKey : string) (record : TagRecord)
    (currentTag : loc) :
  let newRawTags := convertWriteTagsToRawTags newTags in
  let merged :=
    updateTags convertWriteTagsToRawTags getSpecOptions newTags currentTags h in
  let value := ToPropertyKey (Record_get record compareKey) in
  let existing := readArray h currentTag in
  NoDup newRawTags.*1 ->
  (frameIdentifier, VItem (IObject record)) ∈ newRawTags ->
  multiple (getSpecOptions frameIdentifier) = true ->
  updateCompareKey (getSpecOptions frameIdentifier) = Some compareKey ->
  compareKey <> ""%string ->
  value ∉ Object_prototype ->
  ownProperty h merged.1 frameIdentifier = Some (VArray currentTag) ->
  is_Some (arrays h !! currentTag) ->
  (forall key, key ∈ newRawTags.*1 -> key <> frameIdentifier ->
               ownProperty h merged.1 key <> Some (VArray currentTag)) ->
  ownProperty merged.2 merged.1 frameIdentifier = Some (VArray currentTag) /\
  (((forall i item, existing !! i = Some item ->
                    compareValue compareKey item <> Some value) /\
    readArray merged.2 currentTag = existing ++ [IObject record]) \/
   (exists position old,
       existing !! position = Some old /\
       compareValue compareKey old = Some value /\
       (forall later item, (position < later)%nat ->
                           existing !! later = Some item ->
                           compareValue compareKey item <> Some value) /\
       readArray merged.2 currentTag
       = <[position := IObject record]> existing)).
Proof.
  intros newRawTags merged value existing Hnodup Hentry Hmultiple Hkey
    Hnonempty Hown Hheld Hexists Hothers.
  destruct (updateTags_unfold convertWriteTagsToRawTags getSpecOptions
              newTags currentTags h) as (Heq & Hstart & _ & Harrays).
  fold newRawTags in Heq. subst merged. rewrite Heq in *. cbn [fst snd] in *.
  set (start := match raw currentTags with
                | Some object => (object, h)
                | None => newObject h
                end) in *.
  assert (Hin : frameIdentifier ∈ newRawTags.*1)
    by (apply list_elem_of_fmap; by exists (frameIdentifier, VItem (IObject record))).
  pose proof (RawTags_get_elem _ _ _ Hnodup Hentry) as Hnew.
  destruct (list_elem_of_split _ _ Hin) as (before & after & Hkeys).
  rewrite Hkeys in Hnodup, Hothers |- *.
  apply NoDup_app in Hnodup as (Hbefore & Hnotin & Hafter).
  apply NoDup_cons in Hafter as [Hnotafter Hafter].
  rewrite foldl_app. cbn [foldl].
  set (h1 := foldl (updateTags_callback getSpecOptions newRawTags start.1)
               start.2 before).
  set (h2 := updateTags_callback getSpecOptions newRawTags start.1 h1
               frameIdentifier).
  assert (Hnotbefore : frameIdentifier ∉ before).
  { intros Hin'. apply (Hnotin _ Hin'). by left. }
  (* the steps before the frame's own *)
  assert (Hheld1 : ownProperty h1 start.1 frameIdentifier
                   = Some (VArray currentTag)).
  { subst h1. by rewrite steps_absent, Hstart. }
  assert (Harray1 : arrays h1 !! currentTag = arrays h !! currentTag).
  { subst h1. rewrite steps_other_array; [by rewrite Harrays | done
      | by rewrite Harrays |].
    intros key Hkey'. rewrite Hstart. apply Hothers.
    - apply elem_of_app. by left.
    - by intros ->. }
  (* the step of the frame *)
  destruct (updateFrameIfMultiple_refines_specMerge
              (getSpecOptions frameIdentifier) compareKey
              (VItem (IObject record)) currentTag h1 Hmultiple Hkey Hnonempty
              eq_refl)
    as (Hresult & Hmerged & _); [by rewrite Harray1 | done | |].
  { intros item value' ->%list_elem_of_singleton [= <-]. exact Hown. }
  assert (Hheld2 : ownProperty h2 start.1 frameIdentifier
                   = Some (VArray currentTag)).
  { subst h2. rewrite step_ownProperty, decide_True by done.
    unfold storedFrame, getProperty. rewrite Hnew, Hheld1.
    cbn [default from_option id]. by rewrite Hresult. }
  assert (Harray2 : readArray h2 currentTag
                    = specMergeRecord compareKey existing existing
                        (IObject record)).
  { subst h2. rewrite step_unfold, Hnew.
    change (readArray (setProperty ?h' _ _ _) currentTag)
      with (readArray h' currentTag).
    unfold getProperty. rewrite Hheld1. cbn [default from_option id].
    rewrite Hmerged. cbn [specMerge newItems foldl].
    unfold readArray at 1 2. by rewrite Harray1. }
  (* the steps after it *)
  assert (Hexists2 : is_Some (arrays h2 !! currentTag)).
  { apply elem_of_dom. subst h2. apply step_arrays. apply elem_of_dom.
    by rewrite Harray1. }
  split.
  - by rewrite steps_absent.
  - assert (Hfinal :
      readArray
        (foldl (updateTags_callback getSpecOptions newRawTags start.1) h2 after)
        currentTag
      = readArray h2 currentTag).
    { unfold readArray. rewrite steps_other_array; [done..|].
      intros key Hkey'. subst h2.
      rewrite step_ownProperty, decide_False by (by intros ->).
      subst h1. rewrite steps_absent, Hstart.
      - apply Hothers; [|by intros ->].
        apply elem_of_app. right. by right.
      - intros Hin'. apply (Hnotin _ Hin'). by right. }
    rewrite Hfinal, Harray2. apply specMergeRecord_cases.
Qed.

End MergeThroughUpdateTags.

Lemma updateTags_merges_record_witness :
  let newTags := [("TXXX"%string, VItem (userDefinedText "abc" "new"))] in
  let merged := updateTags exampleConvert exampleOptions newTags exampleTags
                  exampleHeap in
  readArray exampleHeap 1%positive = [userDefinedText "abc" "deg"] /\
  ownProperty merged.2 merged.1 "TXXX" = Some (VArray 1%positive) /\
  readArray merged.2 1%positive = [userDefinedText "abc" "new"].
Proof.
  split; [reflexivity|]. split; [|reflexivity].
  apply (updateTags_merges_record exampleConvert exampleOptions
           [("TXXX"%string, VItem (userDefinedText "abc" "new"))]
           exampleTags exampleHeap "TXXX" "description"
           [("description"%string, "abc"%string); ("value"%string, "new"%string)]
           1%positive).
  - apply NoDup_singleton.
  - apply list_elem_of_here.
  - reflexivity.
  - reflexivity.
  - discriminate.
  - vm_compute. intros Hin.
    repeat (inversion Hin as [|? ? ? Hin']; subst; clear Hin;
            rename Hin' into Hin; try discriminate).
  - reflexivity.
  - by eexists.
  - intros key Hkey Hne. by apply list_elem_of_singleton in Hkey.
Defined.
